(** * Keyframe interpolation and playback clock of the play-analysis viewer

    A shallow embedding of the algorithmic core of the [App] component:
    [getCurrentInterpolatedFrame] (the interpolator), the animation [loop]
    with the effect that owns it (the playback clock and the media
    synchronisation it performs) and [handleSeek] (the scrub controller).
    Around it: the analysis service ([analyzeVideoClip] with its sort of
    the keyframes and [fileToGenerativePart]) and the screens of the
    component ([handleFileUpload], [handleAnalyze] and what is rendered
    when).

    JavaScript numbers are IEEE 754 binary64 values; they are modelled by
    Rocq's primitive [float], whose operations are the same binary64
    operations (round to nearest even, NaN unordered, [+0 = -0]).  General
    facts about them are derived from the library's specification
    ([FloatAxioms] over [SpecFloat]). *)

From Stdlib Require Import List String Ascii Bool ZArith Lia Floats Permutation.
Import ListNotations.

(** ** Outcomes of JavaScript code

    Reading a property of [undefined] throws a [TypeError]; a function
    either returns a value or throws. *)

Inductive outcome (A : Type) : Type :=
| Returned (a : A)
| TypeError.

Arguments Returned {A} a.
Arguments TypeError {A}.

Definition bind {A B : Type} (m : outcome A) (k : A -> outcome B) : outcome B :=
  match m with
  | Returned a => k a
  | TypeError => TypeError
  end.

Notation "x <- m ;; k" := (bind m (fun x => k))
  (at level 61, m at next level, right associativity).

(** [a[i]] on a JavaScript array: [undefined] outside [0 .. length-1]. *)
Definition array_get {A : Type} (a : list A) (i : Z) : option A :=
  if (i <? 0)%Z then None else nth_error a (Z.to_nat i).

(** [a[i].field]: the element must exist for the property read to succeed. *)
Definition deref {A : Type} (o : option A) : outcome A :=
  match o with
  | Some a => Returned a
  | None => TypeError
  end.

(** [Array.prototype.findIndex]: index of the first match, [-1] if none. *)
Fixpoint findIndex {A : Type} (p : A -> bool) (a : list A) : Z :=
  match a with
  | [] => (-1)%Z
  | x :: rest =>
      if p x then 0%Z
      else let i := findIndex p rest in
           if (i =? -1)%Z then (-1)%Z else (i + 1)%Z
  end.

(** ** Sample model ([types.ts]) *)

Definition number := float.
Bind Scope float_scope with number.

Module Position.
Record t := mk { x : number; y : number }.
End Position.

Module Player.
Record t := mk { id : string; x : number; y : number }.
End Player.

Record Keyframe := mkKeyframe {
  timeOffset : number;
  ball : Position.t;
  teamRed : list Player.t;
  teamBlue : list Player.t
}.

Record AnalysisResult := mkAnalysisResult {
  summary : string;
  formation : string;
  playType : string;
  keyframes : list Keyframe
}.

(** ** Interpolator ([getCurrentInterpolatedFrame]) *)

Section Interpolator.
Local Open Scope float_scope.

(** [const lerp = (start, end, t) => start + (end - start) * t] *)
Definition lerp (start end_ t : number) : number :=
  start + (end_ - start) * t.

(** [const t = duration === 0 ? 0 : elapsed / duration] *)
Definition interpolationFactor (time : number) (prevFrame nextFrame : Keyframe)
  : number :=
  let duration := timeOffset nextFrame - timeOffset prevFrame in
  let elapsed := time - timeOffset prevFrame in
  if duration =? 0 then 0 else elapsed / duration.

(** The callback mapped over a team of [prevFrame]: match by id in the
    same team of [nextFrame]; a player without a match is returned as is. *)
Definition interpolatePlayer (t : number) (nextTeam : list Player.t)
           (p1 : Player.t) : Player.t :=
  match find (fun p => String.eqb (Player.id p) (Player.id p1)) nextTeam with
  | None => p1
  | Some p2 =>
      Player.mk (Player.id p1)
                (lerp (Player.x p1) (Player.x p2) t)
                (lerp (Player.y p1) (Player.y p2) t)
  end.

(** Lines 40-80: the frame synthesised between two bracketing keyframes. *)
Definition interpolateBetween (time : number) (prevFrame nextFrame : Keyframe)
  : Keyframe :=
  let t := interpolationFactor time prevFrame nextFrame in
  let ball' :=
    Position.mk (lerp (Position.x (ball prevFrame)) (Position.x (ball nextFrame)) t)
                (lerp (Position.y (ball prevFrame)) (Position.y (ball nextFrame)) t) in
  let teamRed' := map (interpolatePlayer t (teamRed nextFrame)) (teamRed prevFrame) in
  let teamBlue' := map (interpolatePlayer t (teamBlue nextFrame)) (teamBlue prevFrame) in
  mkKeyframe time ball' teamRed' teamBlue'.

Definition getCurrentInterpolatedFrame (time : number) (result : AnalysisResult)
  : outcome (option Keyframe) :=
  let frames := keyframes result in
  let len := Z.of_nat (List.length frames) in
  if (len =? 0)%Z then Returned None else
  first <- deref (array_get frames 0) ;;
  if time <=? timeOffset first then Returned (Some first) else
  last <- deref (array_get frames (len - 1)) ;;
  if timeOffset last <=? time then Returned (Some last) else
  let nextIndex := findIndex (fun f => time <? timeOffset f) frames in
  if (nextIndex =? -1)%Z then Returned (Some last) else
  prevFrame <- deref (array_get frames (nextIndex - 1)) ;;
  nextFrame <- deref (array_get frames nextIndex) ;;
  Returned (Some (interpolateBetween time prevFrame nextFrame)).
End Interpolator.


(** [frames[0]] and [frames[frames.length - 1]]. *)
Definition firstFrame (frames : list Keyframe) : option Keyframe :=
  array_get frames 0.

Definition lastFrame (frames : list Keyframe) : option Keyframe :=
  array_get frames (Z.of_nat (List.length frames) - 1).

(** [const currentFrame = analysisResult ? getCurrentInterpolatedFrame(...) : null] *)
Definition currentFrame (currentTime : number) (analysisResult : option AnalysisResult)
  : outcome (option Keyframe) :=
  match analysisResult with
  | Some result => getCurrentInterpolatedFrame currentTime result
  | None => Returned None
  end.

(** ** Playback state of the [App] component

    The pieces of component state the clock, the media synchronisation and
    the scrubber touch: three [useState] cells, the analysis result, the
    [lastFrameTimeRef] ref and the [<video>] element behind [videoRef]
    (its [currentTime]; [None] while the element is not mounted). *)

Record App := mkApp {
  analysisResult : option AnalysisResult;
  isPlaying : bool;
  currentTime : number;
  playbackSpeed : number;
  videoRef : option number;
  lastFrameTimeRef : number
}.

Definition set_analysisResult (r : option AnalysisResult) (s : App) : App :=
  mkApp r (isPlaying s) (currentTime s) (playbackSpeed s)
        (videoRef s) (lastFrameTimeRef s).

Definition set_isPlaying (b : bool) (s : App) : App :=
  mkApp (analysisResult s) b (currentTime s) (playbackSpeed s)
        (videoRef s) (lastFrameTimeRef s).

Definition set_currentTime (v : number) (s : App) : App :=
  mkApp (analysisResult s) (isPlaying s) v (playbackSpeed s)
        (videoRef s) (lastFrameTimeRef s).

Definition set_playbackSpeed (v : number) (s : App) : App :=
  mkApp (analysisResult s) (isPlaying s) (currentTime s) v
        (videoRef s) (lastFrameTimeRef s).

Definition set_videoRef (v : option number) (s : App) : App :=
  mkApp (analysisResult s) (isPlaying s) (currentTime s) (playbackSpeed s)
        v (lastFrameTimeRef s).

Definition set_lastFrameTimeRef (v : number) (s : App) : App :=
  mkApp (analysisResult s) (isPlaying s) (currentTime s) (playbackSpeed s)
        (videoRef s) v.

(** An event handler runs to its end or throws; the state updates and
    assignments it made before are in effect either way. *)
Inductive handled : Type :=
| Completed (s : App)
| Threw (s : App).

Definition stateAfter (h : handled) : App :=
  match h with
  | Completed s | Threw s => s
  end.

Section Playback.
Local Open Scope float_scope.

(** [!v] on a number: true for [0], [-0] and [NaN]. *)
Definition falsy (v : number) : bool := (v =? 0) || is_nan v.

(** Lines 123-124: seconds since the previous tick; a falsy
    [lastFrameTimeRef] is first replaced by the current timestamp. *)
Definition deltaTimeOf (lastFrameTime timestamp : number) : number :=
  let lastFrameTime := if falsy lastFrameTime then timestamp else lastFrameTime in
  (timestamp - lastFrameTime) / 1000.

(** [video.currentTime = value].  The attribute is a WebIDL [double]: a
    finite value becomes the element's time, and the assignment of [NaN]
    or an infinity throws a [TypeError] and leaves the element as it
    is. *)
Definition assignCurrentTime (value : number) : outcome number :=
  if is_finite value then Returned value else TypeError.

(** Lines 133-135: the video element, when there is one, is moved to
    [nextTime] if it is more than half a second away from it. *)
Definition syncVideo (nextTime : number) (video : option number)
  : outcome (option number) :=
  match video with
  | Some videoTime =>
      if 0.5 <? abs (videoTime - nextTime)
      then videoTime' <- assignCurrentTime nextTime ;; Returned (Some videoTime')
      else Returned (Some videoTime)
  | None => Returned None
  end.

(** The animation callback [loop], with the updater it hands to
    [setCurrentTime] applied to the current value of the state. *)
Definition loop (timestamp : number) (s : App) : outcome App :=
  let deltaTime := deltaTimeOf (lastFrameTimeRef s) timestamp in
  let s := set_lastFrameTimeRef timestamp s in
  match isPlaying s, analysisResult s with
  | true, Some result =>
      let prev := currentTime s in
      maxFrame <- deref (lastFrame (keyframes result)) ;;
      let maxTime := timeOffset maxFrame in
      let nextTime := prev + deltaTime * playbackSpeed s in
      video <- syncVideo nextTime (videoRef s) ;;
      let s := set_videoRef video s in
      if maxTime <=? nextTime
      then Returned (set_currentTime maxTime (set_isPlaying false s))
      else Returned (set_currentTime nextTime s)
  | _, _ => Returned s
  end.

(** The body of the effect that owns the loop (lines 147-151), as far as
    state goes: while not playing, [lastFrameTimeRef] is reset to [0]
    (while playing it only schedules the callback). *)
Definition playbackEffect (s : App) : App :=
  if isPlaying s then s else set_lastFrameTimeRef 0 s.

(** A state update is followed by a render, and the effect runs again
    when one of its dependencies [[isPlaying, analysisResult,
    playbackSpeed]] changed. *)
Definition rerender (depsChanged : bool) (s : App) : App :=
  if depsChanged then playbackEffect s else s.

(** One scheduling tick: the callback, then the render its state updates
    cause.  Of the effect's dependencies the callback can only change
    [isPlaying]. *)
Definition tick (timestamp : number) (s : App) : outcome App :=
  s' <- loop timestamp s ;;
  Returned (rerender (negb (Bool.eqb (isPlaying s') (isPlaying s))) s').

(** [setIsPlaying(b)]: [onPlay], [onPause] and the play/pause button. *)
Definition setIsPlaying (b : bool) (s : App) : App :=
  rerender (negb (Bool.eqb b (isPlaying s))) (set_isPlaying b s).

(** [setPlaybackSpeed(speed)]: the rate buttons. *)
Definition setPlaybackSpeed (speed : number) (s : App) : App :=
  rerender (negb (Leibniz.eqb speed (playbackSpeed s))) (set_playbackSpeed speed s).

(** [handleAnalyze] when the analysis succeeds:
    [setAnalysisResult(result); setAppState(AppState.PLAYBACK); setCurrentTime(0)];
    the result is a new object. *)
Definition analysisSucceeded (result : AnalysisResult) (s : App) : App :=
  rerender true (set_currentTime 0 (set_analysisResult (Some result) s)).

(** [handleFileUpload] accepts a file: the [<video>] element is rendered
    and [videoRef.current] is set, at time [0]. *)
Definition videoMounted (s : App) : App := set_videoRef (Some 0) s.

(** The component as first rendered: [useState(false)], [useState(0)],
    [useState(1)], no result, [useRef(0)], no video. *)
Definition initialApp : App := mkApp None false 0 1 None 0.

(** [handleSeek] (manual scrub): [setCurrentTime(val)], then the
    assignment to the video element when there is one.  When the
    assignment throws, the clock has been set and the video is as it
    was. *)
Definition handleSeek (val : number) (s : App) : handled :=
  let s := set_currentTime val s in
  match videoRef s with
  | Some _ =>
      match assignCurrentTime val with
      | Returned videoTime => Completed (set_videoRef (Some videoTime) s)
      | TypeError => Threw s
      end
  | None => Completed s
  end.
End Playback.

(** States the component can be in: the events are the handlers above and
    the animation callback, which is only scheduled while playing. *)
Inductive reachable : App -> Prop :=
| reach_initial : reachable initialApp
| reach_mounted s : reachable s -> reachable (videoMounted s)
| reach_analysis result s : reachable s -> reachable (analysisSucceeded result s)
| reach_setIsPlaying b s : reachable s -> reachable (setIsPlaying b s)
| reach_speed speed s : reachable s -> reachable (setPlaybackSpeed speed s)
| reach_seek val s : reachable s -> reachable (stateAfter (handleSeek val s))
| reach_tick timestamp s s' :
    reachable s -> isPlaying s = true -> tick timestamp s = Returned s' ->
    reachable s'.

(** The states of a run, each with the timestamp of the run's latest tick
    ([None] before its first tick).  A run begins when [setIsPlaying(true)]
    is applied to a stopped component, goes on through every tick that
    leaves it playing, and is not ended by the other events.  The times
    [requestAnimationFrame] hands to the callback are positive. *)
Inductive duringRun : option number -> App -> Prop :=
| run_begins s :
    reachable s -> isPlaying s = false -> duringRun None (setIsPlaying true s)
| run_tick latest timestamp s s' :
    duringRun latest s -> (0 <? timestamp)%float = true ->
    tick timestamp s = Returned s' -> isPlaying s' = true ->
    duringRun (Some timestamp) s'
| run_mounted latest s : duringRun latest s -> duringRun latest (videoMounted s)
| run_analysis latest result s :
    duringRun latest s -> duringRun latest (analysisSucceeded result s)
| run_onPlay latest s : duringRun latest s -> duringRun latest (setIsPlaying true s)
| run_speed latest speed s :
    duringRun latest s -> duringRun latest (setPlaybackSpeed speed s)
| run_seek latest val s :
    duringRun latest s -> duringRun latest (stateAfter (handleSeek val s)).

(** ** Predicates used in the statements *)

Section Predicates.
Local Open Scope float_scope.

(** Keyframes in ascending order of [timeOffset], as left by
    [data.keyframes.sort((a, b) => a.timeOffset - b.timeOffset)]. *)
Fixpoint sortedByTime (frames : list Keyframe) : bool :=
  match frames with
  | a :: (b :: _) as rest => (timeOffset a <=? timeOffset b) && sortedByTime rest
  | _ => true
  end.

(** Every coordinate a frame carries. *)
Definition playerCoords (p : Player.t) : list number :=
  [Player.x p; Player.y p].

Definition coords (f : Keyframe) : list number :=
  [Position.x (ball f); Position.y (ball f)]
    ++ flat_map playerCoords (teamRed f)
    ++ flat_map playerCoords (teamBlue f).

(** No difference between a coordinate of [nextFrame] and one of
    [prevFrame] overflows (which also makes all of them finite). *)
Definition finiteSpan (prevFrame nextFrame : Keyframe) : bool :=
  forallb (fun a => forallb (fun b => is_finite (b - a)) (coords nextFrame))
          (coords prevFrame).

Definition hasId (i : string) (team : list Player.t) : bool :=
  existsb (fun p => String.eqb (Player.id p) i) team.
End Predicates.

Definition sf_is_nan (x : spec_float) : bool :=
  match x with S754_nan => true | _ => false end.

Definition sf_nonzero (x : spec_float) : bool :=
  match x with
  | S754_finite _ _ _ | S754_infinity _ => true
  | _ => false
  end.

Definition sf_is_finite (x : spec_float) : bool :=
  match x with
  | S754_finite _ _ _ | S754_zero _ => true
  | _ => false
  end.

(** ** Sample data *)

Section Samples.
Local Open Scope float_scope.
Local Open Scope string_scope.

(** Scenario A of the specification: the ball moves ten yards in two
    seconds. *)
Definition kfA0 := mkKeyframe 0 (Position.mk 0 0) [] [].
Definition kfA2 := mkKeyframe 2 (Position.mk 10 0) [] [].
Definition scenarioA :=
  mkAnalysisResult "Scenario A" "none" "none" [kfA0; kfA2].

(** A clip whose only sample is taken at one second. *)
Definition kfLate := mkKeyframe 1 (Position.mk 3 4) [Player.mk "QB" 1 1] [].
Definition lateStart :=
  mkAnalysisResult "Late start" "Shotgun" "Pass" [kfLate].

(** Two samples that carry the same timestamp. *)
Definition kfTieA := mkKeyframe 1 (Position.mk 0 0) [] [].
Definition kfTieB := mkKeyframe 1 (Position.mk 5 5) [] [].
Definition tiedSamples :=
  mkAnalysisResult "Tied samples" "none" "none" [kfTieA; kfTieB].


(** A play in which ids come and go between two samples: WR1 and LB are
    only in the first, TE and CB only in the second. *)
Definition kfSnap :=
  mkKeyframe 0 (Position.mk 25 26)
             [Player.mk "QB" 20 26; Player.mk "WR1" 25 5]
             [Player.mk "LB" 30 26].
Definition kfThrow :=
  mkKeyframe 2 (Position.mk 45 26)
             [Player.mk "QB" 18 26; Player.mk "TE" 27 30]
             [Player.mk "CB" 40 10].
Definition passPlay :=
  mkAnalysisResult "Quick pass" "Shotgun" "Pass" [kfSnap; kfThrow].

(** An analysis that came back without any keyframe. *)
Definition noSamples := mkAnalysisResult "Nothing seen" "none" "none" [].


(** A play whose last sample is at 2.25 s, playing at normal speed with
    clock and video both at 2 s and the previous tick at timestamp 1000
    (timestamps are milliseconds). *)
Definition kfEnd := mkKeyframe 2.25 (Position.mk 12 0) [] [].
Definition shortPlay :=
  mkAnalysisResult "Short play" "none" "none" [kfA0; kfEnd].
Definition lateTick := mkApp (Some shortPlay) true 2 1 (Some 2) 1000.

(** Scenario C: a fresh run at double speed, and the state its first
    tick leaves. *)
Definition doubleSpeed := mkApp (Some scenarioA) true 0 2 None 0.

(** Scenario E: the clock at ten seconds of a longer play, first tick of
    a run, with the video at [mediaTime]. *)
Definition kfE20 := mkKeyframe 20 (Position.mk 60 26) [] [].
Definition scenarioE := mkAnalysisResult "Scenario E" "none" "none" [kfA0; kfE20].
Definition mediaAt (mediaTime : number) :=
  mkApp (Some scenarioE) true 10 1 (Some mediaTime) 0.

(** Scenario F: scrubbing to three seconds while running. *)
Definition running := mkApp (Some scenarioE) true 1 1 (Some 1) 5000.
End Samples.

(** ** Statement vocabulary for the sampled keyframes *)

Section MorePredicates.
Local Open Scope float_scope.

(** Keyframes with strictly increasing timestamps. *)
Fixpoint strictlySortedByTime (frames : list Keyframe) : bool :=
  match frames with
  | a :: (b :: _) as rest =>
      (timeOffset a <? timeOffset b) && strictlySortedByTime rest
  | _ => true
  end.

Definition timestampsNotNaN (frames : list Keyframe) : bool :=
  forallb (fun f => negb (is_nan (timeOffset f))) frames.

Definition noNaNCoords (f : Keyframe) : bool :=
  forallb (fun c => negb (is_nan c)) (coords f).

(** Same id and numerically equal coordinates, player by player. *)
Definition samePlayer (p q : Player.t) : bool :=
  String.eqb (Player.id p) (Player.id q)
  && (Player.x p =? Player.x q) && (Player.y p =? Player.y q).

Fixpoint sameTeam (team team' : list Player.t) : bool :=
  match team, team' with
  | [], [] => true
  | p :: rest, q :: rest' => samePlayer p q && sameTeam rest rest'
  | _, _ => false
  end.

Definition samePositions (f g : Keyframe) : bool :=
  (Position.x (ball f) =? Position.x (ball g))
  && (Position.y (ball f) =? Position.y (ball g))
  && sameTeam (teamRed f) (teamRed g)
  && sameTeam (teamBlue f) (teamBlue g).
End MorePredicates.

(** [y] is not after the first of [l]. *)
Definition headLe (y : Keyframe) (l : list Keyframe) : bool :=
  match l with
  | [] => true
  | z :: _ => (timeOffset y <=? timeOffset z)%float
  end.

Definition sf_sign_is (s : bool) (x : spec_float) : bool :=
  match x with
  | S754_finite s' _ _ | S754_infinity s' => Bool.eqb s s'
  | _ => false
  end.

(** ** The analysis service ([services/geminiService.ts]) *)

(** A settled promise: fulfilled with a value or rejected with an error,
    of which the message is kept (the empty message stands for an error
    that has none). *)
Inductive settled (A : Type) : Type :=
| Fulfilled (a : A)
| Rejected (message : string).

Arguments Fulfilled {A} a.
Arguments Rejected {A} message.

(** The [File] the browser hands over: [name], [type] and [size] in
    bytes. *)
Module File.
Record t := mk { name : string; type : string; size : Z }.
End File.

(** [s.split(sep)] for a one-character separator. *)
Fixpoint split_on (sep : ascii) (s : string) : list string :=
  match s with
  | EmptyString => [EmptyString]
  | String c rest =>
      if Ascii.eqb c sep then EmptyString :: split_on sep rest
      else match split_on sep rest with
           | piece :: pieces => String c piece :: pieces
           | [] => [String c EmptyString]
           end
  end.

Section Sorting.
Local Open Scope float_scope.

(** [Array.prototype.sort(comparefn)].  The result is the stable
    arrangement in which [x] comes after [y] only if [comparefn(x, y) > 0]
    (a NaN from the comparator counts as [0]); for a consistent comparator
    this is what every implementation returns.  It is computed here by
    insertion. *)
Fixpoint insertSorted {A : Type} (comparefn : A -> A -> number)
         (x : A) (sorted : list A) : list A :=
  match sorted with
  | [] => [x]
  | y :: rest =>
      if 0 <? comparefn x y then y :: insertSorted comparefn x rest
      else x :: sorted
  end.

Definition array_sort {A : Type} (comparefn : A -> A -> number) (a : list A)
  : list A :=
  fold_right (insertSorted comparefn) [] a.

(** [(a, b) => a.timeOffset - b.timeOffset] *)
Definition byTimeOffset (a b : Keyframe) : number :=
  timeOffset a - timeOffset b.
End Sorting.

Section Service.

(** What the service gets from outside: the [FileReader] result for a
    file, the text of the model's response for a mime type and the
    attached data, and [JSON.parse] read at the declared type. *)
Variable readAsDataURL : File.t -> settled string.
Variable generateContent : string -> option string -> settled (option string).
Variable parseJSON : string -> settled AnalysisResult.

(** [fileToGenerativePart]: the part of the data URL after the first
    comma ([undefined] when there is none). *)
Definition fileToGenerativePart (file : File.t) : settled (option string) :=
  match readAsDataURL file with
  | Fulfilled result => Fulfilled (array_get (split_on ","%char result) 1)
  | Rejected message => Rejected message
  end.

Definition analyzeVideoClip (file : File.t) (apiKey : string)
  : settled AnalysisResult :=
  if String.eqb apiKey EmptyString then Rejected "API Key is missing" else
  match fileToGenerativePart file with
  | Rejected message => Rejected message
  | Fulfilled base64Data =>
      match generateContent (File.type file) base64Data with
      | Rejected message => Rejected message
      | Fulfilled None => Rejected "No response from Gemini"
      | Fulfilled (Some text) =>
          if String.eqb text EmptyString
          then Rejected "No response from Gemini" else
          match parseJSON text with
          | Rejected message => Rejected message
          | Fulfilled data =>
              Fulfilled (mkAnalysisResult
                           (summary data) (formation data) (playType data)
                           (array_sort byTimeOffset (keyframes data)))
          end
      end
  end.
End Service.

(** ** The screens of the [App] component

    The rest of the component state: the screen ([appState]), the chosen
    file, its object URL and the error text, around the playback state. *)

Inductive AppState := IDLE | UPLOADING | ANALYZING | PLAYBACK | ERROR.

Record Page := mkPage {
  appState : AppState;
  videoFile : option File.t;
  videoUrl : option string;
  errorMsg : string;
  playback : App
}.

Section Screens.
Local Open Scope string_scope.

(** The browser and the service as the component sees them:
    [URL.createObjectURL], [process.env.API_KEY] and the three things
    [analyzeVideoClip] gets from outside. *)
Variable createObjectURL : File.t -> string.
Variable API_KEY : option string.
Variable readAsDataURL : File.t -> settled string.
Variable generateContent : string -> option string -> settled (option string).
Variable parseJSON : string -> settled AnalysisResult.

(** The [<video>] element is rendered on every screen but [IDLE], and
    only for a truthy [videoUrl]. *)
Definition videoRendered (p : Page) : bool :=
  match appState p, videoUrl p with
  | IDLE, _ => false
  | _, Some url => negb (String.eqb url EmptyString)
  | _, None => false
  end.

(** [appState === AppState.PLAYBACK && analysisResult]: the field, the
    scrubber and the buttons are rendered. *)
Definition controlsRendered (p : Page) : bool :=
  match appState p, analysisResult (playback p) with
  | PLAYBACK, Some _ => true
  | _, _ => false
  end.

Definition sameSrc (before after : Page) : bool :=
  match videoUrl before, videoUrl after with
  | Some url, Some url' => String.eqb url url'
  | _, _ => false
  end.

(** The render that follows a state update, as far as [videoRef] goes:
    the element that stays rendered with the same [src] keeps its
    position, a new one (or a new [src]) starts at [0], and the ref is
    [null] while no element is rendered. *)
Definition commit (before after : Page) : Page :=
  let video :=
    if videoRendered after
    then if videoRendered before && sameSrc before after
         then videoRef (playback after)
         else Some 0%float
    else None in
  mkPage (appState after) (videoFile after) (videoUrl after) (errorMsg after)
         (set_videoRef video (playback after)).

(** What a render reads from the keyframes: the frame to draw and, on the
    playback screen, the scrubber's [max] (the last keyframe's
    [timeOffset]). *)
Definition render (p : Page) : outcome (option Keyframe * option number) :=
  frame <- currentFrame (currentTime (playback p)) (analysisResult (playback p)) ;;
  match appState p, analysisResult (playback p) with
  | PLAYBACK, Some result =>
      maxFrame <- deref (lastFrame (keyframes result)) ;;
      Returned (frame, Some (timeOffset maxFrame))
  | _, _ => Returned (frame, None)
  end.

Definition initialPage : Page := mkPage IDLE None None EmptyString initialApp.

(** [handleFileUpload], for [e.target.files?.[0]]. *)
Definition handleFileUpload (picked : option File.t) (p : Page) : Page :=
  match picked with
  | None => p
  | Some file =>
      if (20 * 1024 * 1024 <? File.size file)%Z
      then commit p (mkPage ERROR (videoFile p) (videoUrl p)
                       "Video file is too large. Please upload a clip under 20MB."
                       (playback p))
      else commit p (mkPage UPLOADING (Some file) (Some (createObjectURL file))
                       EmptyString (playback p))
  end.

(** [process.env.API_KEY], or the empty string when it is not set. *)
Definition apiKey : string :=
  match API_KEY with
  | Some key => key
  | None => EmptyString
  end.

(** The [catch] block of [handleAnalyze]. *)
Definition analysisFailed (message : string) (p : Page) : Page :=
  let shown :=
    if String.eqb message EmptyString
    then "Failed to analyze video. Gemini API might be busy or the video format is unsupported."
    else message in
  commit p (mkPage ERROR (videoFile p) (videoUrl p) shown (playback p)).

(** [handleAnalyze] up to its [await]: nothing without a file; without an
    API key the error is thrown and caught in the same call. *)
Definition handleAnalyze (p : Page) : Page :=
  match videoFile p with
  | None => p
  | Some _ =>
      if String.eqb apiKey EmptyString
      then analysisFailed "Missing API Key environment variable." p
      else commit p (mkPage ANALYZING (videoFile p) (videoUrl p) (errorMsg p)
                       (playback p))
  end.

(** The call [handleAnalyze] awaits. *)
Definition analysis (file : File.t) : settled AnalysisResult :=
  analyzeVideoClip readAsDataURL generateContent parseJSON file apiKey.

(** [handleAnalyze] after the [await], for the settled promise. *)
Definition handleAnalyze_resumed (settlement : settled AnalysisResult) (p : Page)
  : Page :=
  match settlement with
  | Fulfilled result =>
      commit p (mkPage PLAYBACK (videoFile p) (videoUrl p) (errorMsg p)
                  (analysisSucceeded result (playback p)))
  | Rejected message => analysisFailed message p
  end.

(** The button [Try another video]. *)
Definition tryAnotherVideo (p : Page) : Page :=
  commit p (mkPage IDLE (videoFile p) (videoUrl p) (errorMsg p) (playback p)).

(** A handler of the playback state, on the page. *)
Definition onPlayback (handler : App -> App) (p : Page) : Page :=
  mkPage (appState p) (videoFile p) (videoUrl p) (errorMsg p)
         (handler (playback p)).

(** The events of the component, each offered only by the screen that
    renders its control; the animation callback runs while playing. *)
Inductive pageStep : Page -> Page -> Prop :=
| step_upload picked p :
    appState p = IDLE -> pageStep p (handleFileUpload picked p)
| step_analyze p :
    appState p = UPLOADING -> videoRendered p = true ->
    pageStep p (handleAnalyze p)
| step_settled file p :
    appState p = ANALYZING -> videoFile p = Some file ->
    pageStep p (handleAnalyze_resumed (analysis file) p)
| step_retry p :
    appState p = ERROR -> pageStep p (tryAnotherVideo p)
| step_playPause p :
    controlsRendered p = true ->
    pageStep p (onPlayback (setIsPlaying (negb (isPlaying (playback p)))) p)
| step_videoEvent playing p :
    videoRendered p = true ->
    pageStep p (onPlayback (setIsPlaying playing) p)
| step_speed speed p :
    controlsRendered p = true -> In speed [0.5; 1; 2]%float ->
    pageStep p (onPlayback (setPlaybackSpeed speed) p)
| step_scrub val p :
    controlsRendered p = true ->
    pageStep p (onPlayback (fun s => stateAfter (handleSeek val s)) p)
| step_tick timestamp p s' :
    isPlaying (playback p) = true ->
    tick timestamp (playback p) = Returned s' ->
    pageStep p (onPlayback (fun _ => s') p).

(** Pages the component can show: an event is taken on a page whose
    render did not throw. *)
Inductive pageReachable : Page -> Prop :=
| reach_initialPage : pageReachable initialPage
| reach_step p q shown :
    pageReachable p -> render p = Returned shown -> pageStep p q ->
    pageReachable q.
End Screens.

(** ** More sample data *)

Section MoreSamples.
Local Open Scope float_scope.
Local Open Scope string_scope.

(** The quick pass with a third sample, in which two red players carry
    the id QB. *)
Definition kfCatch :=
  mkKeyframe 4 (Position.mk 60 20)
             [Player.mk "QB" 16 26; Player.mk "QB" 99 99; Player.mk "TE" 40 30]
             [Player.mk "CB" 58 20].
Definition longPass :=
  mkAnalysisResult "Quick pass" "Shotgun" "Pass" [kfSnap; kfThrow; kfCatch].

(** The same samples as the model returned them, out of order. *)
Definition shuffledPass :=
  mkAnalysisResult "Quick pass" "Shotgun" "Pass" [kfThrow; kfCatch; kfSnap].

End MoreSamples.

(** ** Statement vocabulary for the service and the screens *)

(** A string without a comma. *)
Fixpoint commaFree (s : string) : bool :=
  match s with
  | EmptyString => true
  | String c rest => negb (Ascii.eqb c ","%char) && commaFree rest
  end.

(** [20 * 1024 * 1024] bytes. *)
Definition uploadLimit : Z := 20 * 1024 * 1024.

Section ServiceSamples.
Local Open Scope string_scope.

(** A clip of one mebibyte and one of fifty, a reader that answers with a
    base64 data URL, a model whose response text parses to the shuffled
    quick pass, and an API key. *)
Definition smallClip := File.mk "play.mp4" "video/mp4" 1048576.
Definition hugeClip := File.mk "game.mp4" "video/mp4" 52428800.

Definition sampleURL (file : File.t) : string := "blob:" ++ File.name file.

Definition sampleReader (file : File.t) : settled string :=
  Fulfilled ("data:" ++ File.type file ++ ";base64,AAAAIGZ0eXBpc29t").

Definition sampleText : string := "<the model's JSON for the quick pass>".

Definition sampleModel (mimeType : string) (data : option string)
  : settled (option string) :=
  match data with
  | Some _ => Fulfilled (Some sampleText)
  | None => Rejected "Invalid request: no inline data"
  end.

Definition sampleParse (text : string) : settled AnalysisResult :=
  if String.eqb text sampleText then Fulfilled shuffledPass
  else Rejected "Unexpected token in JSON".

Definition sampleKey : option string := Some "sample-key".

(** The pages of a session with these: the clip is chosen, the analysis
    is started and comes back. *)
Definition previewPage : Page :=
  handleFileUpload sampleURL (Some smallClip) initialPage.
Definition analyzingPage : Page := handleAnalyze sampleKey previewPage.
Definition playbackPage : Page :=
  handleAnalyze_resumed
    (analysis sampleKey sampleReader sampleModel sampleParse smallClip)
    analyzingPage.

(** The page after a clip above the limit was chosen. *)
Definition rejectedPage : Page :=
  handleFileUpload sampleURL (Some hugeClip) initialPage.
End ServiceSamples.

(** * Facts about binary64 numbers

    Everything below is derived from the specification of the primitive
    operations by [SpecFloat]'s functions. *)

Module FloatFacts.

Local Open Scope Z_scope.

(** Case analysis on the two comparisons [SFcompare] makes on finite
    values. *)
Ltac cmp_cases :=
  repeat match goal with
  | |- context [Z.compare ?a ?b] => destruct (Z.compare_spec a b)
  | H : context [Z.compare ?a ?b] |- _ => destruct (Z.compare_spec a b)
  | |- context [Pos.compare ?a ?b] => destruct (Pos.compare_spec a b)
  | H : context [Pos.compare ?a ?b] |- _ => destruct (Pos.compare_spec a b)
  end.

(** Order facts on three values, by cases on their shapes and signs. *)
Ltac sf_cases x y z :=
  destruct x as [?s|?s| |?s ?m ?e], y as [?s|?s| |?s ?m ?e], z as [?s|?s| |?s ?m ?e];
  simpl; try discriminate; try reflexivity;
  repeat match goal with
         | s : bool |- _ => destruct s; simpl; try discriminate; try reflexivity
         end;
  change (Pos.compare_cont Eq) with Pos.compare;
  intros; cmp_cases; simpl in *; try discriminate; try reflexivity; try lia.

(** ** The order of [SFcompare] *)

Lemma SFcompare_refl x : sf_is_nan x = false -> SFcompare x x = Some Eq.
Proof.
  destruct x as [s|s| |s m e]; simpl; try discriminate; intros _.
  - reflexivity.
  - destruct s; reflexivity.
  - rewrite Z.compare_refl, Pos.compare_cont_refl. destruct s; reflexivity.
Qed.

Lemma SFcompare_antisym x y :
  SFcompare y x = option_map CompOpp (SFcompare x y).
Proof.
  destruct x as [s1|s1| |s1 m1 e1], y as [s2|s2| |s2 m2 e2]; simpl;
    try reflexivity;
    try (destruct s1; reflexivity); try (destruct s2; reflexivity);
    try (destruct s1, s2; reflexivity).
  destruct s1, s2; simpl; try reflexivity;
    rewrite (Z.compare_antisym e1 e2);
    destruct (e1 ?= e2)%Z; simpl; try reflexivity;
    rewrite (Pos.compare_cont_antisym m1 m2 Eq); simpl;
    try rewrite CompOpp_involutive; reflexivity.
Qed.

Lemma SFcompare_some x y :
  sf_is_nan x = false -> sf_is_nan y = false -> exists c, SFcompare x y = Some c.
Proof.
  destruct x, y; simpl; try discriminate; eauto.
Qed.

Lemma SFleb_ltb_trans x y z :
  SFleb x y = true -> SFltb y z = true -> SFltb x z = true.
Proof. unfold SFleb, SFltb. sf_cases x y z. Qed.

Lemma SFltb_leb_trans x y z :
  SFltb x y = true -> SFleb y z = true -> SFltb x z = true.
Proof. unfold SFleb, SFltb. sf_cases x y z. Qed.

Lemma SFleb_trans x y z :
  SFleb x y = true -> SFleb y z = true -> SFleb x z = true.
Proof. unfold SFleb. sf_cases x y z. Qed.

(** IEEE equality identifies the two zeros and nothing else. *)
Lemma SFeqb_cases x y :
  SFeqb x y = true ->
  x = y \/ exists s s', x = S754_zero s /\ y = S754_zero s'.
Proof.
  unfold SFeqb.
  destruct x as [s1|s1| |s1 m1 e1], y as [s2|s2| |s2 m2 e2]; simpl;
    try discriminate; try (destruct s1; discriminate); try (destruct s2; discriminate).
  - intros _. right; eauto.
  - destruct s1, s2; try discriminate; auto.
  - change (Pos.compare_cont Eq) with Pos.compare.
    destruct s1, s2; try discriminate;
      destruct (Z.compare_spec e1 e2); try discriminate;
      destruct (Pos.compare_spec m1 m2); try discriminate; intros _; left; congruence.
Qed.

Lemma SFeqb_ltb_compat t x y :
  SFeqb x y = true -> SFltb t x = SFltb t y.
Proof.
  intros H. destruct (SFeqb_cases x y H) as [->|(s & s' & -> & ->)].
  - reflexivity.
  - unfold SFltb. destruct t as [st|st| |st mt et]; simpl; reflexivity.
Qed.

(** ** Rounding a non-zero integer never gives zero *)

Lemma iter_pos_nat {A} (f : A -> A) p x :
  iter_pos f p x = Nat.iter (Pos.to_nat p) f x.
Proof.
  revert x; induction p as [p IH|p IH|]; intros x; cbn [iter_pos].
  - rewrite !IH, Pos2Nat.inj_xI, <- Nat.iter_succ_r, <- Nat.iter_add.
    f_equal; lia.
  - rewrite !IH, Pos2Nat.inj_xO, <- Nat.iter_add.
    f_equal; lia.
  - reflexivity.
Qed.

(** Shifting right by fewer places than the mantissa has digits leaves a
    positive mantissa. *)
Lemma shr_1_iter_pos n : forall m r s,
  Z.of_nat n < Zpos (digits2_pos m) ->
  exists m', shr_m (Nat.iter n shr_1 (Build_shr_record (Zpos m) r s)) = Zpos m'.
Proof.
  induction n as [|n IH]; intros m r s Hn.
  - exists m; reflexivity.
  - rewrite Nat.iter_succ_r.
    destruct m as [p|p|]; simpl shr_1; simpl digits2_pos in Hn.
    + apply IH. lia.
    + apply IH. lia.
    + lia.
Qed.

Lemma shr_fexp_pos m e l :
  emin <= e ->
  exists m' e', shr_fexp prec emax (Zpos m) e l = (m', e')
                /\ (exists p, shr_m m' = Zpos p) /\ emin <= e'.
Proof.
  intros He. unfold shr_fexp, shr.
  set (n := SpecFloat.fexp prec emax (Zdigits2 (Zpos m) + e) - e).
  assert (Hn : n < Zpos (digits2_pos m)).
  { subst n. unfold SpecFloat.fexp, SpecFloat.emin in *. simpl Zdigits2.
    unfold prec, emax in *. lia. }
  assert (Hf : emin <= e + n).
  { subst n. unfold SpecFloat.fexp, SpecFloat.emin in *. lia. }
  destruct n as [|p|p] eqn:En.
  - eexists _, _; split; [reflexivity|]. split; [|assumption].
    destruct l as [|[| |]]; simpl; eauto.
  - eexists _, _; split; [reflexivity|]. split; [|assumption].
    rewrite iter_pos_nat.
    destruct l as [|[| |]]; simpl shr_record_of_loc;
      apply shr_1_iter_pos; rewrite positive_nat_Z; assumption.
  - eexists _, _; split; [reflexivity|]. split; [|assumption].
    destruct l as [|[| |]]; simpl; eauto.
Qed.

Lemma round_nearest_even_pos p l :
  exists q, round_nearest_even (Zpos p) l = Zpos q.
Proof.
  destruct l as [|[| |]]; simpl; eauto.
  destruct p; simpl; eauto.
Qed.

Lemma binary_round_aux_nonzero s m e l :
  emin <= e ->
  sf_nonzero (binary_round_aux prec emax s (Zpos m) e l) = true.
Proof.
  intros He. unfold binary_round_aux.
  destruct (shr_fexp_pos m e l He) as (mrs1 & e1 & E1 & (p1 & Hp1) & He1).
  rewrite E1, Hp1.
  destruct (round_nearest_even_pos p1 (loc_of_shr_record mrs1)) as (q & Hq).
  rewrite Hq.
  destruct (shr_fexp_pos q e1 loc_Exact He1) as (mrs2 & e2 & E2 & (p2 & Hp2) & He2).
  rewrite E2, Hp2.
  destruct (e2 <=? emax - prec); reflexivity.
Qed.

Lemma binary_round_nonzero s m e :
  emin <= e ->
  sf_nonzero (binary_round prec emax s m e) = true.
Proof.
  intros He. unfold binary_round, shl_align.
  set (e' := SpecFloat.fexp prec emax (Z.pos (digits2_pos m) + e)).
  assert (emin <= e') by (subst e'; unfold SpecFloat.fexp; lia).
  destruct (e' - e); apply binary_round_aux_nonzero; assumption.
Qed.

Lemma binary_normalize_nonzero m e sz :
  m <> 0 -> emin <= e ->
  sf_nonzero (binary_normalize prec emax m e sz) = true.
Proof.
  intros Hm He. destruct m; [congruence| |]; simpl; now apply binary_round_nonzero.
Qed.

(** ** Subtraction *)

Lemma digits2_pos_iter_xO m d :
  Zpos (digits2_pos (Pos.iter xO m d)) = Zpos (digits2_pos m) + Zpos d.
Proof.
  induction d as [|d IH] using Pos.peano_ind.
  - simpl. lia.
  - rewrite Pos.iter_succ. simpl digits2_pos. lia.
Qed.

(** Two canonical finite values in strict order have different aligned
    mantissas, so their difference rounds to a non-zero value. *)
Lemma SFsub_finite_nonzero sx mx ex sy my ey :
  valid_binary (S754_finite sx mx ex) = true ->
  valid_binary (S754_finite sy my ey) = true ->
  SFltb (S754_finite sx mx ex) (S754_finite sy my ey) = true ->
  sf_nonzero (SF64sub (S754_finite sy my ey) (S754_finite sx mx ex)) = true.
Proof.
  intros Vx Vy Hlt.
  simpl in Vx, Vy. unfold bounded, canonical_mantissa in Vx, Vy.
  apply andb_prop in Vx, Vy. destruct Vx as [Cx _], Vy as [Cy _].
  apply Z.eqb_eq in Cx, Cy.
  unfold SF64sub, SFsub.
  apply binary_normalize_nonzero.
  - unfold SFltb in Hlt; simpl in Hlt.
    unfold shl_align.
    destruct (Z.compare_spec ex ey) as [E|E|E].
    + subst ey. rewrite Z.min_id, Z.sub_diag. simpl fst.
      change (Pos.compare_cont Eq) with Pos.compare in Hlt.
      destruct sx, sy; simpl in Hlt; try discriminate; unfold cond_Zopp;
        try lia;
        destruct (Pos.compare_spec mx my); simpl in Hlt; try discriminate; lia.
    + rewrite Z.min_r by lia. rewrite Z.sub_diag. simpl fst.
      destruct (ex - ey) as [|d|d] eqn:Ed; try lia. simpl fst.
      intros HZ.
      assert (Hm : Pos.iter xO my d = mx)
        by (destruct sx, sy; unfold cond_Zopp in HZ; lia).
      rewrite <- Hm, digits2_pos_iter_xO in Cx.
      replace (Z.pos (digits2_pos my) + Z.pos d + ex)
        with (Z.pos (digits2_pos my) + ey) in Cx by lia.
      lia.
    + rewrite Z.min_l by lia. rewrite Z.sub_diag. simpl fst.
      destruct (ey - ex) as [|d|d] eqn:Ed; try lia. simpl fst.
      intros HZ.
      assert (Hm : Pos.iter xO mx d = my)
        by (destruct sx, sy; unfold cond_Zopp in HZ; lia).
      rewrite <- Hm, digits2_pos_iter_xO in Cy.
      replace (Z.pos (digits2_pos mx) + Z.pos d + ey)
        with (Z.pos (digits2_pos mx) + ex) in Cy by lia.
      lia.
  - unfold SpecFloat.fexp in Cx, Cy. apply Z.min_glb; lia.
Qed.

Lemma SFsub_nonzero x y :
  valid_binary x = true -> valid_binary y = true ->
  SFltb x y = true ->
  sf_nonzero (SF64sub y x) = true.
Proof.
  intros Vx Vy Hlt.
  destruct x as [sx|sx| |sx mx ex], y as [sy|sy| |sy my ey];
    try (now apply SFsub_finite_nonzero);
    unfold SFltb in Hlt; simpl in Hlt; try discriminate;
    try (destruct sx; try discriminate); try (destruct sy; try discriminate);
    reflexivity.
Qed.

Lemma sf_nonzero_eqb x : sf_nonzero x = true -> SFeqb x (S754_zero false) = false.
Proof.
  destruct x as [s|s| |s m e]; simpl; try discriminate; intros _; destruct s; reflexivity.
Qed.


Lemma SFsub_self x :
  sf_is_finite x = true -> SF64sub x x = S754_zero false.
Proof.
  destruct x as [s|s| |s m e]; try discriminate; intros _.
  - destruct s; reflexivity.
  - unfold SF64sub, SFsub. rewrite Z.sub_diag. reflexivity.
Qed.

Lemma SFsub_finite_l x y :
  sf_is_finite (SF64sub y x) = true -> sf_is_nan x = false.
Proof.
  destruct x, y; simpl; try discriminate; reflexivity.
Qed.

Lemma SFmul_zero x :
  sf_is_finite x = true -> exists s, SF64mul x (S754_zero false) = S754_zero s.
Proof.
  destruct x; simpl; try discriminate; eauto.
Qed.

Lemma SFadd_zero x s :
  sf_is_nan x = false -> SFeqb (SF64add x (S754_zero s)) x = true.
Proof.
  intros H. unfold SFeqb.
  destruct x as [s1|s1| |s1 m1 e1]; try discriminate.
  - destruct s1, s; reflexivity.
  - destruct s1; reflexivity.
  - unfold SF64add, SFadd. rewrite SFcompare_refl; reflexivity.
Qed.

(** ** The same facts on [float] *)

Local Open Scope float_scope.

Lemma Prim2SF_zero : Prim2SF 0 = S754_zero false.
Proof. reflexivity. Qed.

Lemma Prim2SF_infinity : Prim2SF infinity = S754_infinity false.
Proof. reflexivity. Qed.

Lemma is_nan_spec a : is_nan a = sf_is_nan (Prim2SF a).
Proof.
  unfold is_nan. rewrite eqb_spec. unfold SFeqb.
  destruct (Prim2SF a) as [s|s| |s m e] eqn:E.
  1,2,4: rewrite SFcompare_refl; reflexivity.
  reflexivity.
Qed.

Lemma is_finite_spec a : is_finite a = sf_is_finite (Prim2SF a).
Proof.
  unfold is_finite, is_infinity.
  rewrite is_nan_spec, eqb_spec, abs_spec, Prim2SF_infinity.
  destruct (Prim2SF a) as [s|s| |s m e]; reflexivity.
Qed.

Lemma ltb_leb a b : (a <? b) = true -> (a <=? b) = true.
Proof.
  rewrite ltb_spec, leb_spec. unfold SFltb, SFleb.
  destruct (SFcompare _ _) as [[| |]|]; congruence.
Qed.

Lemma ltb_irrefl a : (a <? a) = false.
Proof.
  rewrite ltb_spec. unfold SFltb.
  destruct (sf_is_nan (Prim2SF a)) eqn:E.
  - destruct (Prim2SF a); try discriminate; reflexivity.
  - now rewrite SFcompare_refl.
Qed.

Lemma ltb_antisym a b : (a <? b) = true -> (b <=? a) = false.
Proof.
  rewrite ltb_spec, leb_spec. unfold SFltb, SFleb.
  rewrite (SFcompare_antisym (Prim2SF a) (Prim2SF b)).
  destruct (SFcompare _ _) as [[| |]|]; simpl; congruence.
Qed.

Lemma leb_antisym a b : (a <=? b) = true -> (b <? a) = false.
Proof.
  rewrite ltb_spec, leb_spec. unfold SFltb, SFleb.
  rewrite (SFcompare_antisym (Prim2SF a) (Prim2SF b)).
  destruct (SFcompare _ _) as [[| |]|]; simpl; congruence.
Qed.

Lemma leb_total a b :
  is_nan a = false -> is_nan b = false -> (b <? a) = false -> (a <=? b) = true.
Proof.
  rewrite !is_nan_spec, ltb_spec, leb_spec. unfold SFltb, SFleb.
  intros Ha Hb. destruct (SFcompare_some _ _ Ha Hb) as [c Hc].
  rewrite (SFcompare_antisym (Prim2SF a) (Prim2SF b)), Hc.
  destruct c; simpl; congruence.
Qed.

Lemma leb_not_nan a b : (a <=? b) = true -> is_nan a = false /\ is_nan b = false.
Proof.
  rewrite !is_nan_spec, leb_spec. unfold SFleb.
  destruct (Prim2SF a), (Prim2SF b); simpl; try discriminate; auto.
Qed.

Lemma ltb_not_nan a b : (a <? b) = true -> is_nan a = false /\ is_nan b = false.
Proof. intros H. apply leb_not_nan, ltb_leb, H. Qed.

Lemma leb_ltb_trans a b c :
  (a <=? b) = true -> (b <? c) = true -> (a <? c) = true.
Proof. rewrite !ltb_spec, leb_spec. apply SFleb_ltb_trans. Qed.

Lemma ltb_leb_trans a b c :
  (a <? b) = true -> (b <=? c) = true -> (a <? c) = true.
Proof. rewrite !ltb_spec, leb_spec. apply SFltb_leb_trans. Qed.

Lemma leb_trans a b c :
  (a <=? b) = true -> (b <=? c) = true -> (a <=? c) = true.
Proof. rewrite !leb_spec. apply SFleb_trans. Qed.

(** [b - a] is not zero when [a < b]: subtraction never underflows to
    zero. *)
Lemma sub_neq_zero a b : (a <? b) = true -> (b - a =? 0) = false.
Proof.
  rewrite ltb_spec, eqb_spec, sub_spec, Prim2SF_zero. intros H.
  apply sf_nonzero_eqb, SFsub_nonzero; auto using Prim2SF_valid.
Qed.


Lemma sub_self a : is_finite a = true -> a - a = 0.
Proof.
  rewrite is_finite_spec. intros H. apply Prim2SF_inj.
  rewrite sub_spec, Prim2SF_zero. now apply SFsub_self.
Qed.

Lemma sub_finite_not_nan a b : is_finite (b - a) = true -> is_nan a = false.
Proof.
  rewrite is_finite_spec, is_nan_spec, sub_spec. apply SFsub_finite_l.
Qed.

(** With factor [0] and no overflow in [end_ - start], [lerp] gives
    [start] (up to the sign of a zero). *)
Lemma lerp_zero a b :
  is_finite (b - a) = true -> (lerp a b 0 =? a) = true.
Proof.
  unfold lerp. rewrite is_finite_spec, eqb_spec, add_spec, mul_spec, Prim2SF_zero.
  rewrite sub_spec. intros H.
  destruct (SFmul_zero _ H) as [s ->].
  apply SFadd_zero. eapply SFsub_finite_l; eassumption.
Qed.

Lemma eqb_ltb_compat t a b : (a =? b) = true -> (t <? a) = (t <? b).
Proof. rewrite eqb_spec, !ltb_spec. apply SFeqb_ltb_compat. Qed.


End FloatFacts.

(** * Arrays *)

Module ArrayFacts.

Local Open Scope Z_scope.

Lemma array_get_of_nat {A} (a : list A) (i : nat) :
  array_get a (Z.of_nat i) = nth_error a i.
Proof.
  unfold array_get.
  destruct (Z.ltb_spec (Z.of_nat i) 0); [lia|].
  now rewrite Nat2Z.id.
Qed.

Lemma array_get_pred {A} (a : list A) (i : nat) :
  array_get a (Z.of_nat (S i) - 1) = nth_error a i.
Proof.
  replace (Z.of_nat (S i) - 1) with (Z.of_nat i) by lia.
  apply array_get_of_nat.
Qed.

Lemma array_get_last {A} (x : A) (a : list A) :
  array_get (x :: a) (Z.of_nat (List.length (x :: a)) - 1)
  = nth_error (x :: a) (List.length a).
Proof. simpl List.length. apply array_get_pred. Qed.

Lemma nth_error_last_some {A} (x : A) (a : list A) :
  exists y, nth_error (x :: a) (List.length a) = Some y.
Proof.
  destruct (nth_error (x :: a) (List.length a)) eqn:E; eauto.
  apply nth_error_None in E. simpl in E. lia.
Qed.

Lemma findIndex_range {A} (p : A -> bool) (a : list A) :
  -1 <= findIndex p a < Z.of_nat (List.length a).
Proof.
  induction a as [|x a IH]; simpl List.length; simpl findIndex; [lia|].
  destruct (p x); [lia|].
  destruct (Z.eqb_spec (findIndex p a) (-1)); lia.
Qed.

(** When [findIndex] answers [j], the element at [j] is the first match. *)
Lemma findIndex_found {A} (p : A -> bool) (a : list A) (j : nat) :
  findIndex p a = Z.of_nat j ->
  (exists x, nth_error a j = Some x /\ p x = true)
  /\ (forall k y, (k < j)%nat -> nth_error a k = Some y -> p y = false).
Proof.
  revert j; induction a as [|x a IH]; intros j; simpl findIndex.
  - lia.
  - destruct (p x) eqn:Px.
    + intros E. assert (j = 0%nat) by lia. subst j. split.
      * exists x. auto.
      * intros k y Hk. lia.
    + destruct (Z.eqb_spec (findIndex p a) (-1)) as [E1|E1]; [lia|].
      intros E. destruct j as [|j]; [pose proof (findIndex_range p a); lia|].
      assert (E' : findIndex p a = Z.of_nat j) by lia.
      destruct (IH j E') as [Hx Hbefore]. split.
      * exact Hx.
      * intros [|k] y Hk Hy; simpl in Hy.
        -- congruence.
        -- apply (Hbefore k); [lia|assumption].
Qed.

Lemma findIndex_first {A} (p : A -> bool) (a : list A) (j : nat) (x : A) :
  nth_error a j = Some x -> p x = true ->
  (forall k y, (k < j)%nat -> nth_error a k = Some y -> p y = false) ->
  findIndex p a = Z.of_nat j.
Proof.
  revert j; induction a as [|x0 a IH]; intros j Hj Px Hbefore.
  - destruct j; discriminate.
  - simpl findIndex. destruct j as [|j]; simpl in Hj.
    + injection Hj as ->. now rewrite Px.
    + rewrite (Hbefore 0%nat x0) by (simpl; auto; lia).
      rewrite (IH j Hj Px).
      * destruct (Z.eqb_spec (Z.of_nat j) (-1)); lia.
      * intros k y Hk Hy. apply (Hbefore (S k)); [lia|assumption].
Qed.


End ArrayFacts.

(** * The interpolator *)

Module InterpolatorFacts.

Import FloatFacts ArrayFacts.
Local Open Scope float_scope.

(** ** Sorted keyframes *)

Lemma sorted_tail a frames :
  sortedByTime (a :: frames) = true -> sortedByTime frames = true.
Proof.
  destruct frames as [|b rest]; [reflexivity|].
  cbn [sortedByTime]. intros H. apply andb_prop in H. tauto.
Qed.

Lemma sorted_head_le frames : forall a,
  sortedByTime (a :: frames) = true ->
  forall j b, nth_error frames j = Some b -> (timeOffset a <=? timeOffset b) = true.
Proof.
  induction frames as [|b0 rest IH]; intros a Hs j b Hj.
  - destruct j; discriminate.
  - cbn [sortedByTime] in Hs. apply andb_prop in Hs. destruct Hs as [Hab Hs].
    destruct j as [|j]; simpl in Hj.
    + now injection Hj as <-.
    + eapply leb_trans; [exact Hab|]. eapply IH; eassumption.
Qed.

Lemma sorted_nth frames : forall i j a b,
  sortedByTime frames = true -> (i < j)%nat ->
  nth_error frames i = Some a -> nth_error frames j = Some b ->
  (timeOffset a <=? timeOffset b) = true.
Proof.
  induction frames as [|x rest IH]; intros i j a b Hs Hij Hi Hj.
  - destruct i; discriminate.
  - destruct j as [|j]; [lia|]. simpl in Hj.
    destruct i as [|i]; simpl in Hi.
    + injection Hi as <-. eapply sorted_head_le; eassumption.
    + eapply (IH i j); eauto using sorted_tail. lia.
Qed.

(** ** The clamps *)

Lemma frames_ends (frames : list Keyframe) :
  frames <> [] ->
  exists first last, firstFrame frames = Some first /\ lastFrame frames = Some last.
Proof.
  destruct frames as [|x rest]; [congruence|]. intros _.
  unfold firstFrame, lastFrame. rewrite array_get_last.
  destruct (nth_error_last_some x rest) as [y Hy]. exists x, y. auto.
Qed.

Lemma length_eqb_nil (frames : list Keyframe) :
  (Z.of_nat (List.length frames) =? 0)%Z = true <-> frames = [].
Proof.
  rewrite Z.eqb_eq. destruct frames; simpl List.length; split; intros; try lia; congruence.
Qed.

Lemma interpolate_empty time result :
  keyframes result = [] -> getCurrentInterpolatedFrame time result = Returned None.
Proof.
  intros E. unfold getCurrentInterpolatedFrame. now rewrite E.
Qed.

(** The body of the function once the emptiness test and the two reads
    [frames[0]] and [frames[frames.length - 1]] have succeeded. *)
Lemma interpolate_unfold time result first last :
  firstFrame (keyframes result) = Some first ->
  lastFrame (keyframes result) = Some last ->
  getCurrentInterpolatedFrame time result =
    if time <=? timeOffset first then Returned (Some first) else
    if timeOffset last <=? time then Returned (Some last) else
    let frames := keyframes result in
    let nextIndex := findIndex (fun f => time <? timeOffset f) frames in
    if (nextIndex =? -1)%Z then Returned (Some last) else
    prevFrame <- deref (array_get frames (nextIndex - 1)) ;;
    nextFrame <- deref (array_get frames nextIndex) ;;
    Returned (Some (interpolateBetween time prevFrame nextFrame)).
Proof.
  intros Hf Hl. unfold getCurrentInterpolatedFrame.
  unfold firstFrame in Hf. unfold lastFrame in Hl.
  destruct (Z.eqb_spec (Z.of_nat (List.length (keyframes result))) 0) as [E|E].
  - apply Z.eqb_eq, length_eqb_nil in E. rewrite E in Hf. discriminate.
  - rewrite Hf, Hl. reflexivity.
Qed.

(** ** The bracket *)

(** For sorted keyframes, two consecutive keyframes that enclose [time]
    strictly are the ones the function interpolates between. *)
Lemma interpolate_in_bracket time result i prevFrame nextFrame :
  sortedByTime (keyframes result) = true ->
  nth_error (keyframes result) i = Some prevFrame ->
  nth_error (keyframes result) (S i) = Some nextFrame ->
  (timeOffset prevFrame <? time) = true ->
  (time <? timeOffset nextFrame) = true ->
  getCurrentInterpolatedFrame time result
  = Returned (Some (interpolateBetween time prevFrame nextFrame)).
Proof.
  intros Hs Hp Hn Hlo Hhi.
  assert (Hne : keyframes result <> []).
  { intros E. rewrite E in Hp. destruct i; discriminate. }
  destruct (frames_ends _ Hne) as (first & last & Hf & Hl).
  rewrite (interpolate_unfold time result first last Hf Hl).
  (* the lower clamp does not fire *)
  assert (Hfirst : (time <=? timeOffset first) = false).
  { apply ltb_antisym. unfold firstFrame in Hf.
    rewrite (array_get_of_nat _ 0) in Hf.
    destruct i as [|i].
    - congruence.
    - eapply leb_ltb_trans; [|exact Hlo].
      eapply (sorted_nth _ 0 (S i)); eauto. lia. }
  rewrite Hfirst.
  (* nor does the upper one *)
  assert (Hlast : (timeOffset last <=? time) = false).
  { apply ltb_antisym. unfold lastFrame in Hl.
    destruct (keyframes result) as [|x rest] eqn:E; [congruence|].
    rewrite array_get_last in Hl.
    destruct (Nat.eq_dec (S i) (List.length rest)) as [Elen|Nlen].
    - rewrite <- Elen in Hl. congruence.
    - eapply ltb_leb_trans; [exact Hhi|].
      eapply (sorted_nth _ (S i) (List.length rest)); eauto.
      assert (S i < List.length (x :: rest))%nat
        by (apply nth_error_Some; congruence).
      simpl in H. lia. }
  rewrite Hlast. cbv zeta.
  (* findIndex stops at S i *)
  assert (Hidx : findIndex (fun f => time <? timeOffset f) (keyframes result)
                 = Z.of_nat (S i)).
  { eapply findIndex_first; [exact Hn|exact Hhi|].
    intros k y Hk Hy. apply leb_antisym.
    destruct (Nat.eq_dec k i) as [->|Nk].
    - apply ltb_leb. congruence.
    - apply ltb_leb. eapply leb_ltb_trans; [|exact Hlo].
      eapply (sorted_nth _ k i); eauto. lia. }
  rewrite Hidx.
  destruct (Z.eqb_spec (Z.of_nat (S i)) (-1)) as [E|_]; [lia|].
  rewrite array_get_pred, array_get_of_nat, Hp, Hn. reflexivity.
Qed.



(** The function never throws. *)
Lemma interpolate_returns time result :
  keyframes result <> [] ->
  exists frame, getCurrentInterpolatedFrame time result = Returned (Some frame).
Proof.
  intros Hne.
  destruct (frames_ends _ Hne) as (first & last & Hf & Hl).
  rewrite (interpolate_unfold time result first last Hf Hl).
  destruct (time <=? timeOffset first) eqn:Hlo; [eauto|].
  destruct (timeOffset last <=? time) eqn:Hhi; [eauto|]. cbv zeta.
  set (p := fun f => time <? timeOffset f).
  pose proof (findIndex_range p (keyframes result)) as Hrange.
  destruct (Z.eqb_spec (findIndex p (keyframes result)) (-1)) as [E|NE]; [eauto|].
  assert (Hj : findIndex p (keyframes result)
               = Z.of_nat (Z.to_nat (findIndex p (keyframes result)))) by lia.
  destruct (findIndex_found p _ _ Hj) as [(nextFrame & Hnext & Pnext) _].
  destruct (Z.to_nat (findIndex p (keyframes result))) as [|i] eqn:Ei.
  { unfold firstFrame in Hf. rewrite (array_get_of_nat _ 0) in Hf.
    assert (nextFrame = first) by congruence. subst nextFrame.
    unfold p in Pnext. apply ltb_leb in Pnext. congruence. }
  rewrite Hj, array_get_pred, array_get_of_nat, Hnext.
  destruct (nth_error (keyframes result) i) as [prevFrame|] eqn:E.
  - simpl. eauto.
  - apply nth_error_None in E.
    assert (S i < List.length (keyframes result))%nat
      by (apply nth_error_Some; congruence).
    lia.
Qed.


End InterpolatorFacts.

(** * Properties of the interpolator *)

Module InterpolatorSpec.

Import FloatFacts ArrayFacts InterpolatorFacts.
Local Open Scope float_scope.

(** ** Teams *)

Lemma find_none_of_hasId (p1 : Player.t) (team : list Player.t) :
  hasId (Player.id p1) team = false ->
  find (fun p => String.eqb (Player.id p) (Player.id p1)) team = None.
Proof.
  induction team as [|q team IH]; simpl; [reflexivity|].
  destruct (String.eqb (Player.id q) (Player.id p1)); simpl; [discriminate|exact IH].
Qed.

Lemma interpolatePlayer_unmatched t nextTeam p1 :
  hasId (Player.id p1) nextTeam = false ->
  interpolatePlayer t nextTeam p1 = p1.
Proof.
  intros H. unfold interpolatePlayer. now rewrite find_none_of_hasId.
Qed.

Lemma interpolatePlayer_id t nextTeam p1 :
  Player.id (interpolatePlayer t nextTeam p1) = Player.id p1.
Proof.
  unfold interpolatePlayer. destruct (find _ nextTeam); reflexivity.
Qed.

Lemma hasId_interpolated ident t nextTeam prevTeam :
  hasId ident (map (interpolatePlayer t nextTeam) prevTeam) = hasId ident prevTeam.
Proof.
  induction prevTeam as [|p team IH]; simpl; [reflexivity|].
  now rewrite interpolatePlayer_id, IH.
Qed.

(** C1 (counterexample).  Two sorted, non-empty inputs on which the claim
    fails.  On a clip whose only keyframe is at one second, the query at
    time zero returns that keyframe with its own [timeOffset] [1]: the
    query time is not echoed.  On two keyframes that both carry timestamp
    [1], the query at time [1] is at or after the last timestamp and still
    returns the first keyframe, whose ball is elsewhere. *)
Lemma clamp_keeps_keyframe_time :
  (sortedByTime (keyframes lateStart) = true
   /\ (0 <=? timeOffset kfLate) = true
   /\ getCurrentInterpolatedFrame 0 lateStart = Returned (Some kfLate)
   /\ (timeOffset kfLate =? 0) = false)
  /\
  (sortedByTime (keyframes tiedSamples) = true
   /\ lastFrame (keyframes tiedSamples) = Some kfTieB
   /\ (timeOffset kfTieB <=? 1) = true
   /\ getCurrentInterpolatedFrame 1 tiedSamples = Returned (Some kfTieA)
   /\ (Position.x (ball kfTieA) =? Position.x (ball kfTieB)) = false).
Proof. repeat split; reflexivity. Qed.

(** C1 (amended).  For every non-empty keyframe sequence: a query at or
    before the first timestamp returns the first keyframe itself, and any
    other query at or after the last timestamp returns the last keyframe
    itself.  The returned frame is the stored one, with its own
    [timeOffset], so nothing outside the sampled range is produced. *)
Theorem clamp_returns_stored_keyframe :
  forall time result first last,
    firstFrame (keyframes result) = Some first ->
    lastFrame (keyframes result) = Some last ->
    ((time <=? timeOffset first) = true ->
     getCurrentInterpolatedFrame time result = Returned (Some first))
    /\ ((time <=? timeOffset first) = false ->
        (timeOffset last <=? time) = true ->
        getCurrentInterpolatedFrame time result = Returned (Some last)).
Proof.
  intros time result first last Hf Hl.
  rewrite (interpolate_unfold time result first last Hf Hl).
  split.
  - intros ->. reflexivity.
  - intros -> ->. reflexivity.
Qed.

Lemma clamp_returns_stored_keyframe_witness :
  getCurrentInterpolatedFrame (-1) scenarioA = Returned (Some kfA0)
  /\ getCurrentInterpolatedFrame 5 scenarioA = Returned (Some kfA2).
Proof.
  split.
  - apply (clamp_returns_stored_keyframe (-1) scenarioA kfA0 kfA2); reflexivity.
  - apply (clamp_returns_stored_keyframe 5 scenarioA kfA0 kfA2); reflexivity.
Defined.

(** The factor is the plain quotient whenever the bracket is strict. *)
Lemma interpolationFactor_quotient time prevFrame nextFrame :
  (timeOffset prevFrame <=? time) = true ->
  (time <? timeOffset nextFrame) = true ->
  interpolationFactor time prevFrame nextFrame
  = (time - timeOffset prevFrame) / (timeOffset nextFrame - timeOffset prevFrame).
Proof.
  intros Hlo Hhi. unfold interpolationFactor.
  now rewrite (sub_neq_zero _ _ (leb_ltb_trans _ _ _ Hlo Hhi)).
Qed.



(** ** Coordinates of an interpolated frame *)

Lemma finiteSpan_spec prevFrame nextFrame :
  finiteSpan prevFrame nextFrame = true ->
  forall a b, In a (coords prevFrame) -> In b (coords nextFrame) ->
              is_finite (b - a) = true.
Proof.
  unfold finiteSpan. rewrite forallb_forall. intros H a b Ha Hb.
  specialize (H a Ha). rewrite forallb_forall in H. auto.
Qed.



Lemma finiteSpan_not_nan prevFrame nextFrame a :
  finiteSpan prevFrame nextFrame = true ->
  In a (coords prevFrame) -> is_nan a = false.
Proof.
  intros Hspan Ha.
  apply (sub_finite_not_nan a (Position.x (ball nextFrame))).
  apply (finiteSpan_spec _ _ Hspan); [assumption|].
  unfold coords. simpl. auto.
Qed.




(** ** Inside a bracket

    The setting of the two statements on teams: sorted keyframes, two
    consecutive keyframes [prevFrame] and [nextFrame] of the sequence, and
    a query time strictly between their timestamps. *)

Section InBracket.

Variables (time : number) (result : AnalysisResult) (i : nat).
Variables (prevFrame nextFrame : Keyframe).
Hypothesis Hsorted : sortedByTime (keyframes result) = true.
Hypothesis Hprev : nth_error (keyframes result) i = Some prevFrame.
Hypothesis Hnext : nth_error (keyframes result) (S i) = Some nextFrame.
Hypothesis Hafter : (timeOffset prevFrame <? time) = true.
Hypothesis Hbefore : (time <? timeOffset nextFrame) = true.

(** C4.  For sorted keyframes, consecutive keyframes [prevFrame] and
    [nextFrame] and a query time strictly between their timestamps: every
    player of a team of [prevFrame] whose id is not in the same team of
    [nextFrame] is in the returned frame, at the same place in the team
    list and unchanged (same id, same coordinates); the teams keep their
    length, so no player is left out. *)
Theorem unmatched_player_kept :
  exists frame,
    getCurrentInterpolatedFrame time result = Returned (Some frame)
    /\ (forall k p, nth_error (teamRed prevFrame) k = Some p ->
                    hasId (Player.id p) (teamRed nextFrame) = false ->
                    nth_error (teamRed frame) k = Some p)
    /\ (forall k p, nth_error (teamBlue prevFrame) k = Some p ->
                    hasId (Player.id p) (teamBlue nextFrame) = false ->
                    nth_error (teamBlue frame) k = Some p)
    /\ List.length (teamRed frame) = List.length (teamRed prevFrame)
    /\ List.length (teamBlue frame) = List.length (teamBlue prevFrame).
Proof.
  exists (interpolateBetween time prevFrame nextFrame).
  split; [now apply (interpolate_in_bracket time result i)|].
  unfold interpolateBetween. cbn [teamRed teamBlue].
  repeat split.
  - intros k p Hk Hid.
    rewrite nth_error_map, Hk. cbn [option_map].
    now rewrite interpolatePlayer_unmatched.
  - intros k p Hk Hid.
    rewrite nth_error_map, Hk. cbn [option_map].
    now rewrite interpolatePlayer_unmatched.
  - apply length_map.
  - apply length_map.
Qed.

(** C5.  In the same setting: an id that is carried by a player of a team
    of [nextFrame] and by no player of that team in [prevFrame] is carried
    by no player of that team in the returned frame; the ids of a returned
    team are those of [prevFrame]'s team, in order.  A player that is new
    in [nextFrame] is therefore not shown at any time of this bracket
    before [nextFrame]'s timestamp. *)
Theorem new_player_not_shown :
  exists frame,
    getCurrentInterpolatedFrame time result = Returned (Some frame)
    /\ map Player.id (teamRed frame) = map Player.id (teamRed prevFrame)
    /\ map Player.id (teamBlue frame) = map Player.id (teamBlue prevFrame)
    /\ (forall ident,
           hasId ident (teamRed nextFrame) = true ->
           hasId ident (teamRed prevFrame) = false ->
           hasId ident (teamRed frame) = false)
    /\ (forall ident,
           hasId ident (teamBlue nextFrame) = true ->
           hasId ident (teamBlue prevFrame) = false ->
           hasId ident (teamBlue frame) = false).
Proof.
  exists (interpolateBetween time prevFrame nextFrame).
  split; [now apply (interpolate_in_bracket time result i)|].
  unfold interpolateBetween. cbn [teamRed teamBlue].
  repeat split.
  - rewrite map_map. apply map_ext. intros p. apply interpolatePlayer_id.
  - rewrite map_map. apply map_ext. intros p. apply interpolatePlayer_id.
  - intros ident _ Hnew. now rewrite hasId_interpolated.
  - intros ident _ Hnew. now rewrite hasId_interpolated.
Qed.

End InBracket.

Lemma unmatched_player_kept_witness :
  exists frame,
    getCurrentInterpolatedFrame 1 passPlay = Returned (Some frame)
    /\ nth_error (teamRed frame) 1 = Some (Player.mk "WR1" 25 5)
    /\ nth_error (teamBlue frame) 0 = Some (Player.mk "LB" 30 26).
Proof.
  destruct (unmatched_player_kept 1 passPlay 0 kfSnap kfThrow
              eq_refl eq_refl eq_refl eq_refl eq_refl)
    as (frame & Hframe & Hred & Hblue & _).
  exists frame. split; [exact Hframe|]. split.
  - apply (Hred 1%nat); reflexivity.
  - apply (Hblue 0%nat); reflexivity.
Defined.

Lemma new_player_not_shown_witness :
  exists frame,
    getCurrentInterpolatedFrame 1 passPlay = Returned (Some frame)
    /\ hasId "TE" (teamRed frame) = false
    /\ hasId "CB" (teamBlue frame) = false.
Proof.
  destruct (new_player_not_shown 1 passPlay 0 kfSnap kfThrow
              eq_refl eq_refl eq_refl eq_refl eq_refl)
    as (frame & Hframe & _ & _ & Hred & Hblue).
  exists frame. split; [exact Hframe|]. split.
  - apply Hred; reflexivity.
  - apply Hblue; reflexivity.
Defined.

(** C6.  The function returns [null] exactly when there is no keyframe:
    [null] for the empty sequence at every time, a frame for every
    non-empty sequence at every time, and it never throws. *)
Theorem null_iff_no_keyframe :
  forall time result,
    (getCurrentInterpolatedFrame time result = Returned None
     <-> keyframes result = [])
    /\ (keyframes result <> [] ->
        exists frame,
          getCurrentInterpolatedFrame time result = Returned (Some frame)).
Proof.
  intros time result. split; [split|].
  - intros Hnull. destruct (keyframes result) as [|k rest] eqn:E; [reflexivity|].
    assert (Hne : keyframes result <> []) by congruence.
    destruct (interpolate_returns time result Hne) as [frame Hframe].
    congruence.
  - apply interpolate_empty.
  - apply interpolate_returns.
Qed.

Lemma null_iff_no_keyframe_witness :
  getCurrentInterpolatedFrame 1 noSamples = Returned None
  /\ exists frame, getCurrentInterpolatedFrame 1 passPlay = Returned (Some frame).
Proof.
  split.
  - apply (proj1 (null_iff_no_keyframe 1 noSamples)). reflexivity.
  - apply (proj2 (null_iff_no_keyframe 1 passPlay)). discriminate.
Defined.

End InterpolatorSpec.

(** * Properties of the playback clock, the media synchronisation and the
      scrubber *)

Module PlaybackSpec.

Import FloatFacts ArrayFacts InterpolatorFacts.
Local Open Scope float_scope.
#[local] Set Warnings "-inexact-float".

(** ** Moving the video *)

(** For a finite [nextTime] the synchronisation returns: a mounted video
    is moved to [nextTime] exactly when it is more than half a second away
    from it. *)
Lemma syncVideo_finite nextTime video :
  is_finite nextTime = true ->
  syncVideo nextTime video
  = Returned (option_map (fun videoTime =>
                            if 0.5 <? abs (videoTime - nextTime)
                            then nextTime else videoTime) video).
Proof.
  intros Hfin. unfold syncVideo, assignCurrentTime. destruct video as [videoTime|].
  - rewrite Hfin. cbn. destruct (0.5 <? abs (videoTime - nextTime)); reflexivity.
  - reflexivity.
Qed.

Lemma syncVideo_mounted nextTime videoTime :
  is_finite nextTime = true ->
  syncVideo nextTime (Some videoTime)
  = Returned (Some (if 0.5 <? abs (videoTime - nextTime)
                    then nextTime else videoTime)).
Proof. intros Hfin. now rewrite syncVideo_finite. Qed.

(** It throws exactly when a mounted video would have to be moved to a
    time that is not finite. *)
Lemma syncVideo_throws nextTime video :
  syncVideo nextTime video = TypeError
  <-> exists videoTime,
      video = Some videoTime
      /\ (0.5 <? abs (videoTime - nextTime)) = true
      /\ is_finite nextTime = false.
Proof.
  unfold syncVideo, assignCurrentTime. destruct video as [videoTime|].
  - destruct (0.5 <? abs (videoTime - nextTime)) eqn:Efar.
    + destruct (is_finite nextTime) eqn:Efin; cbn [bind].
      * split; [discriminate|]. intros (v & _ & _ & Hfin). discriminate.
      * split; [|reflexivity]. intros _. exists videoTime. auto.
    + split; [discriminate|].
      intros (v & E & Hfar & _). injection E as <-. congruence.
  - split; [discriminate|]. intros (v & E & _). discriminate.
Qed.

(** ** One tick *)

(** The callback while playing a result that has a last keyframe. *)
Lemma loop_running timestamp s result maxFrame :
  isPlaying s = true ->
  analysisResult s = Some result ->
  lastFrame (keyframes result) = Some maxFrame ->
  loop timestamp s =
    let nextTime :=
      currentTime s + deltaTimeOf (lastFrameTimeRef s) timestamp * playbackSpeed s in
    video <- syncVideo nextTime (videoRef s) ;;
    let s1 := set_videoRef video (set_lastFrameTimeRef timestamp s) in
    if timeOffset maxFrame <=? nextTime
    then Returned (set_currentTime (timeOffset maxFrame) (set_isPlaying false s1))
    else Returned (set_currentTime nextTime s1).
Proof.
  intros Hp Hr Hl. unfold loop.
  cbn [isPlaying analysisResult set_lastFrameTimeRef].
  rewrite Hp, Hr, Hl. reflexivity.
Qed.

(** The tick whose synchronisation returned: the state it leaves. *)
Lemma tick_running timestamp s result maxFrame video :
  isPlaying s = true ->
  analysisResult s = Some result ->
  lastFrame (keyframes result) = Some maxFrame ->
  syncVideo (currentTime s
             + deltaTimeOf (lastFrameTimeRef s) timestamp * playbackSpeed s)
            (videoRef s) = Returned video ->
  tick timestamp s
  = Returned
      (if timeOffset maxFrame
          <=? currentTime s
              + deltaTimeOf (lastFrameTimeRef s) timestamp * playbackSpeed s
       then mkApp (analysisResult s) false (timeOffset maxFrame)
                  (playbackSpeed s) video 0
       else mkApp (analysisResult s) true
                  (currentTime s
                   + deltaTimeOf (lastFrameTimeRef s) timestamp * playbackSpeed s)
                  (playbackSpeed s) video timestamp).
Proof.
  intros Hp Hr Hl Hsync. unfold tick.
  rewrite (loop_running timestamp s result maxFrame Hp Hr Hl). cbv zeta.
  rewrite Hsync. cbn [bind].
  destruct (timeOffset maxFrame <=? _); cbn [bind];
    unfold rerender, playbackEffect, set_currentTime, set_isPlaying,
           set_videoRef, set_lastFrameTimeRef;
    cbn [analysisResult isPlaying currentTime playbackSpeed videoRef
         lastFrameTimeRef];
    rewrite ?Hp; reflexivity.
Qed.

(** The tick whose synchronisation throws. *)
Lemma tick_sync_throws timestamp s result maxFrame :
  isPlaying s = true ->
  analysisResult s = Some result ->
  lastFrame (keyframes result) = Some maxFrame ->
  syncVideo (currentTime s
             + deltaTimeOf (lastFrameTimeRef s) timestamp * playbackSpeed s)
            (videoRef s) = TypeError ->
  tick timestamp s = TypeError.
Proof.
  intros Hp Hr Hl Hsync. unfold tick.
  rewrite (loop_running timestamp s result maxFrame Hp Hr Hl). cbv zeta.
  now rewrite Hsync.
Qed.

(** Without a last keyframe the read of its [timeOffset] throws. *)
Lemma loop_no_keyframes timestamp s result :
  isPlaying s = true ->
  analysisResult s = Some result ->
  keyframes result = [] ->
  loop timestamp s = TypeError.
Proof.
  intros Hp Hr Hk. unfold loop.
  cbn [isPlaying analysisResult set_lastFrameTimeRef].
  rewrite Hp, Hr, Hk. reflexivity.
Qed.

(** Without a result the callback only records the timestamp. *)
Lemma tick_no_result timestamp s :
  analysisResult s = None ->
  tick timestamp s = Returned (set_lastFrameTimeRef timestamp s).
Proof.
  intros Hr. unfold tick, loop.
  cbn [isPlaying analysisResult set_lastFrameTimeRef]. rewrite Hr.
  destruct (isPlaying s) eqn:Ep; cbn [bind];
    unfold rerender; cbn [isPlaying set_lastFrameTimeRef]; rewrite Ep; reflexivity.
Qed.

Lemma deltaTimeOf_first timestamp lastFrameTime :
  falsy lastFrameTime = true -> is_finite timestamp = true ->
  deltaTimeOf lastFrameTime timestamp = 0.
Proof.
  intros Hf Hfin. unfold deltaTimeOf. rewrite Hf, (sub_self _ Hfin). reflexivity.
Qed.

Lemma deltaTimeOf_next timestamp lastFrameTime :
  falsy lastFrameTime = false ->
  deltaTimeOf lastFrameTime timestamp = (timestamp - lastFrameTime) / 1000.
Proof.
  intros Hf. unfold deltaTimeOf. now rewrite Hf.
Qed.

(** A positive number is not falsy. *)
Lemma positive_not_falsy v : (0 <? v) = true -> falsy v = false.
Proof.
  intros Hpos. unfold falsy. destruct (ltb_not_nan _ _ Hpos) as [_ ->].
  rewrite orb_false_r. destruct (v =? 0) eqn:E; [|reflexivity].
  rewrite (eqb_ltb_compat 0 v 0 E), ltb_irrefl in Hpos. discriminate.
Qed.

Lemma not_leb_not_ltb a b : (a <=? b) = false -> (a <? b) = false.
Proof.
  intros H. destruct (a <? b) eqn:E; [|reflexivity].
  apply ltb_leb in E. congruence.
Qed.

(** ** The bookkeeping of [lastFrameTimeRef] *)

(** A tick from a playing state leaves the ref at its timestamp while the
    run goes on, and at [0] when it stops the run. *)
Lemma tick_ref timestamp s s' :
  isPlaying s = true ->
  tick timestamp s = Returned s' ->
  lastFrameTimeRef s' = (if isPlaying s' then timestamp else 0).
Proof.
  intros Hp Ht. destruct (analysisResult s) as [result|] eqn:Er.
  - destruct (lastFrame (keyframes result)) as [maxFrame|] eqn:El.
    + destruct (syncVideo
                  (currentTime s
                   + deltaTimeOf (lastFrameTimeRef s) timestamp * playbackSpeed s)
                  (videoRef s)) as [video|] eqn:Es.
      * rewrite (tick_running timestamp s result maxFrame video Hp Er El Es) in Ht.
        injection Ht as <-. destruct (timeOffset maxFrame <=? _); reflexivity.
      * rewrite (tick_sync_throws timestamp s result maxFrame Hp Er El Es) in Ht.
        discriminate.
    + unfold tick, loop in Ht.
      cbn [isPlaying analysisResult set_lastFrameTimeRef] in Ht.
      rewrite Hp, Er, El in Ht. discriminate.
  - rewrite (tick_no_result timestamp s Er) in Ht. injection Ht as <-.
    cbn. now rewrite Hp.
Qed.

Lemma stateAfter_handleSeek val s :
  stateAfter (handleSeek val s)
  = set_videoRef (match videoRef s with
                  | Some videoTime =>
                      Some (if is_finite val then val else videoTime)
                  | None => None
                  end)
                 (set_currentTime val s).
Proof.
  unfold handleSeek, assignCurrentTime. cbn [videoRef set_currentTime].
  destruct (videoRef s) as [videoTime|] eqn:Ev.
  - destruct (is_finite val); cbn; unfold set_videoRef, set_currentTime;
      cbn; rewrite ?Ev; reflexivity.
  - cbn. unfold set_videoRef, set_currentTime. cbn. rewrite Ev. reflexivity.
Qed.

(** While the component is not playing, [lastFrameTimeRef] is [0]. *)
Lemma stopped_ref_is_zero s :
  reachable s -> isPlaying s = false -> lastFrameTimeRef s = 0.
Proof.
  induction 1 as [ | s _ IH | result s _ IH | b s _ IH | speed s _ IH
                 | val s _ IH | timestamp s s' _ IH Hp Ht ]; intros Hstop.
  - reflexivity.
  - apply IH, Hstop.
  - unfold analysisSucceeded, rerender, playbackEffect in *.
    cbn [isPlaying set_currentTime set_analysisResult] in *.
    destruct (isPlaying s) eqn:Es; cbn in *; [congruence|reflexivity].
  - unfold setIsPlaying, rerender, playbackEffect in *.
    destruct b, (isPlaying s) eqn:Es; cbn in *; try discriminate; auto.
  - unfold setPlaybackSpeed, rerender, playbackEffect in *.
    destruct (Leibniz.eqb speed (playbackSpeed s)); cbn in *.
    + apply IH, Hstop.
    + destruct (isPlaying s) eqn:Es; cbn in *; [congruence|reflexivity].
  - rewrite stateAfter_handleSeek in *. cbn in *. apply IH, Hstop.
  - rewrite (tick_ref timestamp s s' Hp Ht), Hstop. reflexivity.
Qed.

(** The state in which a run starts: [setIsPlaying(true)] on a stopped
    component. *)
Lemma run_start s :
  reachable s -> isPlaying s = false ->
  setIsPlaying true s
  = mkApp (analysisResult s) true (currentTime s) (playbackSpeed s) (videoRef s) 0.
Proof.
  intros Hr Hstop. pose proof (stopped_ref_is_zero s Hr Hstop) as Hz.
  unfold setIsPlaying, rerender, playbackEffect, set_isPlaying.
  rewrite Hstop. cbn. now rewrite Hz.
Qed.

(** So the first tick of every run finds the ref falsy. *)
Lemma run_starts_with_falsy_ref s :
  reachable s -> isPlaying s = false ->
  isPlaying (setIsPlaying true s) = true
  /\ falsy (lastFrameTimeRef (setIsPlaying true s)) = true.
Proof.
  intros Hr Hstop. rewrite (run_start s Hr Hstop). split; reflexivity.
Qed.

(** During a run the component is playing, and [lastFrameTimeRef] holds
    the timestamp of the run's latest tick, [0] before the first. *)
Lemma duringRun_state latest s :
  duringRun latest s ->
  isPlaying s = true
  /\ lastFrameTimeRef s = match latest with
                          | Some previous => previous
                          | None => 0
                          end
  /\ match latest with
     | Some previous => (0 <? previous) = true
     | None => True
     end.
Proof.
  induction 1 as [ s Hr Hstop
                 | latest timestamp s s' _ IH Hpos Ht Hp'
                 | latest s _ IH | latest result s _ IH | latest s _ IH
                 | latest speed s _ IH | latest val s _ IH ].
  - rewrite (run_start s Hr Hstop). cbn. auto.
  - destruct IH as (Hp & _ & _).
    rewrite (tick_ref timestamp s s' Hp Ht), Hp'. auto.
  - exact IH.
  - destruct IH as (Hp & Href & Hpos).
    unfold analysisSucceeded, rerender, playbackEffect.
    cbn [isPlaying set_currentTime set_analysisResult]. rewrite Hp. cbn. auto.
  - destruct IH as (Hp & Href & Hpos).
    unfold setIsPlaying, rerender. rewrite Hp. cbn. auto.
  - destruct IH as (Hp & Href & Hpos).
    unfold setPlaybackSpeed, rerender, playbackEffect.
    destruct (negb _); cbn [isPlaying set_playbackSpeed]; rewrite ?Hp; cbn; auto.
  - rewrite stateAfter_handleSeek. cbn. exact IH.
Qed.

(** The seconds the callback computes during a run: none on the first
    tick, the time since the latest tick afterwards. *)
Lemma duringRun_elapsed latest timestamp s :
  duringRun latest s ->
  is_finite timestamp = true ->
  deltaTimeOf (lastFrameTimeRef s) timestamp
  = match latest with
    | Some previous => (timestamp - previous) / 1000
    | None => 0
    end.
Proof.
  intros Hrun Hfin. destruct (duringRun_state latest s Hrun) as (_ & -> & Hpos).
  destruct latest as [previous|].
  - apply deltaTimeOf_next, positive_not_falsy, Hpos.
  - now apply deltaTimeOf_first.
Qed.

(** C7.  In every step of a run over a result with at least one keyframe
    the clock advances by the elapsed seconds times the playback speed:
    with [elapsed] zero on the first tick of the run and the time since
    the run's latest tick afterwards ([(timestamp - previous) / 1000],
    timestamps being milliseconds), and
    [advanced = currentTime + elapsed * playbackSpeed] (a finite number;
    the timestamp is finite): if [advanced] is below the last keyframe's
    [timeOffset], the clock moves to [advanced] and the run goes on, this
    tick being its latest; otherwise the clock is set to that [timeOffset]
    and stops in the same step.  The new time is never above that
    [timeOffset]. *)
Theorem tick_advances_and_clamps :
  forall latest timestamp s result,
    duringRun latest s ->
    analysisResult s = Some result ->
    keyframes result <> [] ->
    is_finite timestamp = true ->
    let elapsed := match latest with
                   | Some previous => (timestamp - previous) / 1000
                   | None => 0
                   end in
    let advanced := currentTime s + elapsed * playbackSpeed s in
    is_finite advanced = true ->
    exists maxFrame s',
      lastFrame (keyframes result) = Some maxFrame
      /\ tick timestamp s = Returned s'
      /\ (if timeOffset maxFrame <=? advanced
          then currentTime s' = timeOffset maxFrame /\ isPlaying s' = false
          else currentTime s' = advanced /\ isPlaying s' = true)
      /\ (timeOffset maxFrame <? currentTime s') = false
      /\ lastFrameTimeRef s' = (if isPlaying s' then timestamp else 0)
      /\ (isPlaying s' = true -> (0 <? timestamp) = true ->
          duringRun (Some timestamp) s').
Proof.
  intros latest timestamp s result Hrun Hr Hne Hts elapsed advanced Hfin.
  destruct (frames_ends _ Hne) as (first & maxFrame & _ & Hl).
  destruct (duringRun_state latest s Hrun) as (Hp & _ & _).
  pose proof (duringRun_elapsed latest timestamp s Hrun Hts) as Hel.
  assert (Hadv : currentTime s
                 + deltaTimeOf (lastFrameTimeRef s) timestamp * playbackSpeed s
                 = advanced).
  { unfold advanced, elapsed. rewrite Hel. reflexivity. }
  assert (Hsync : syncVideo
                    (currentTime s
                     + deltaTimeOf (lastFrameTimeRef s) timestamp * playbackSpeed s)
                    (videoRef s)
                  = Returned (option_map
                                (fun videoTime =>
                                   if 0.5 <? abs (videoTime - advanced)
                                   then advanced else videoTime) (videoRef s))).
  { rewrite Hadv. now apply syncVideo_finite. }
  pose proof (tick_running timestamp s result maxFrame _ Hp Hr Hl Hsync) as Htick.
  rewrite Hadv in Htick.
  exists maxFrame. eexists. split; [exact Hl|]. split; [exact Htick|].
  destruct (timeOffset maxFrame <=? advanced) eqn:Hclamp;
    cbn [currentTime isPlaying lastFrameTimeRef]; repeat split.
  - apply ltb_irrefl.
  - discriminate.
  - now apply not_leb_not_ltb.
  - intros _ Hpos. apply (run_tick latest timestamp s); auto.
Qed.

(** A run of scenario A at double speed, after its first tick at one
    second. *)
Lemma doubleSpeed_run :
  duringRun (Some 1000) (mkApp (Some scenarioA) true 0 2 None 1000).
Proof.
  apply (run_tick None 1000
                  (setIsPlaying true
                     (setPlaybackSpeed 2 (analysisSucceeded scenarioA initialApp))));
    try reflexivity.
  apply run_begins; [|reflexivity].
  apply reach_speed, reach_analysis, reach_initial.
Qed.

Lemma tick_advances_and_clamps_witness :
  exists s',
    tick 1500 (mkApp (Some scenarioA) true 0 2 None 1000) = Returned s'
    /\ currentTime s' = 1 /\ isPlaying s' = true.
Proof.
  destruct (tick_advances_and_clamps
              (Some 1000) 1500 (mkApp (Some scenarioA) true 0 2 None 1000)
              scenarioA doubleSpeed_run eq_refl)
    as (maxFrame & s' & Hmax & Htick & Hstep & _).
  - discriminate.
  - reflexivity.
  - reflexivity.
  - exists s'. split; [exact Htick|].
    injection Hmax as <-. exact Hstep.
Defined.

(** Scenario C: at double speed, half a second of real time moves the
    clock by one second. *)
Example scenario_C :
  (s1 <- tick 1000 doubleSpeed ;; tick 1500 s1)
  = Returned (mkApp (Some scenarioA) true 1 2 None 1500).
Proof. reflexivity. Qed.

(** Scenario D: a tick that lands on the last timestamp stops the clock
    there, and a later run stops again without passing it. *)
Example scenario_D :
  tick 2000 (mkApp (Some scenarioA) true 1 1 None 1000)
  = Returned (mkApp (Some scenarioA) false 2 1 None 0)
  /\ tick 9000 (setIsPlaying true (mkApp (Some scenarioA) false 2 1 None 0))
     = Returned (mkApp (Some scenarioA) false 2 1 None 0).
Proof. split; reflexivity. Qed.


(** ** Media synchronisation *)

(** The time handed to [syncVideo] is the advanced time, before the clamp
    to the last timestamp. *)
Lemma tick_syncs_video timestamp s result video :
  isPlaying s = true ->
  analysisResult s = Some result ->
  keyframes result <> [] ->
  syncVideo (currentTime s
             + deltaTimeOf (lastFrameTimeRef s) timestamp * playbackSpeed s)
            (videoRef s) = Returned video ->
  exists s', tick timestamp s = Returned s' /\ videoRef s' = video.
Proof.
  intros Hp Hr Hne Hsync.
  destruct (frames_ends _ Hne) as (first & maxFrame & _ & Hl).
  rewrite (tick_running timestamp s result maxFrame video Hp Hr Hl Hsync).
  eexists. split; [reflexivity|].
  destruct (timeOffset maxFrame <=? _); reflexivity.
Qed.

(** On a tick that stays below the last timestamp that time is the
    clock's new time: a mounted video is moved to the clock exactly when it
    is more than half a second away from it. *)
Lemma tick_video_follows_clock timestamp s result maxFrame videoTime :
  isPlaying s = true ->
  analysisResult s = Some result ->
  lastFrame (keyframes result) = Some maxFrame ->
  videoRef s = Some videoTime ->
  is_finite (currentTime s
             + deltaTimeOf (lastFrameTimeRef s) timestamp * playbackSpeed s)
  = true ->
  (timeOffset maxFrame
   <=? currentTime s + deltaTimeOf (lastFrameTimeRef s) timestamp * playbackSpeed s)
  = false ->
  exists s',
    tick timestamp s = Returned s'
    /\ videoRef s'
       = Some (if 0.5 <? abs (videoTime - currentTime s')
               then currentTime s' else videoTime).
Proof.
  intros Hp Hr Hl Hv Hfin Hbelow.
  rewrite (tick_running timestamp s result maxFrame _ Hp Hr Hl
             (syncVideo_finite _ (videoRef s) Hfin)).
  rewrite Hbelow, Hv. eexists. split; reflexivity.
Qed.

(** Scenario E: with the clock at ten seconds, a video at 10.2 s is left
    alone and a video at 10.9 s is moved to 10 s. *)
Example scenario_E :
  (exists s', tick 16 (mediaAt 10.2) = Returned s'
              /\ currentTime s' = 10 /\ videoRef s' = Some 10.2)
  /\ (exists s', tick 16 (mediaAt 10.9) = Returned s'
                 /\ currentTime s' = 10 /\ videoRef s' = Some 10).
Proof. split; eexists; repeat split. Qed.

(** The events that lead to [lateTick]: a video is chosen and analysed,
    play is pressed, the first tick comes at timestamp 1000 and the user
    scrubs to 2 s. *)
Example lateTick_trace :
  tick 1000 (setIsPlaying true (analysisSucceeded shortPlay (videoMounted initialApp)))
  = Returned (mkApp (Some shortPlay) true 0 1 (Some 0) 1000)
  /\ handleSeek 2 (mkApp (Some shortPlay) true 0 1 (Some 0) 1000)
     = Completed lateTick.
Proof. split; reflexivity. Qed.

(** C9 (the code at the failing input).  Clock and video are both at 2 s
    of a play that ends at 2.25 s, and the next tick comes one second after
    the previous one: the tick stops the clock at 2.25 s and moves the
    video to 3 s, although the video is only a quarter of a second away
    from the clock's new time. *)
Theorem overshooting_tick_moves_video_past_clock :
  tick 2000 lateTick = Returned (mkApp (Some shortPlay) false 2.25 1 (Some 3) 0)
  /\ (0.5 <? abs (2 - 2.25)) = false.
Proof. split; reflexivity. Qed.

(** ** Scrubbing *)

(** For a value that is not finite the assignment to a mounted video
    throws: the clock has been set and the video stays where it was. *)
Lemma handleSeek_not_finite val s :
  is_finite val = false ->
  handleSeek val s
  = match videoRef s with
    | Some _ => Threw (set_currentTime val s)
    | None => Completed (set_currentTime val s)
    end.
Proof.
  intros Hfin. unfold handleSeek, assignCurrentTime.
  cbn [videoRef set_currentTime]. rewrite Hfin. reflexivity.
Qed.

(** C10.  For every requested time [val] (a finite number),
    [handleSeek val] runs to its end: it sets the clock to exactly [val],
    moves a mounted video to [val] whatever its time was, and changes
    nothing else: the playing flag, the speed, the result and the tick
    bookkeeping stay, and the effect has nothing to redo. *)
Theorem seek_sets_clock_and_video :
  forall val s,
    is_finite val = true ->
    exists s',
      handleSeek val s = Completed s'
      /\ currentTime s' = val
      /\ videoRef s' = option_map (fun _ => val) (videoRef s)
      /\ isPlaying s' = isPlaying s
      /\ playbackSpeed s' = playbackSpeed s
      /\ analysisResult s' = analysisResult s
      /\ lastFrameTimeRef s' = lastFrameTimeRef s.
Proof.
  intros val s Hfin. unfold handleSeek, assignCurrentTime.
  cbn [videoRef set_currentTime]. rewrite Hfin.
  destruct (videoRef s) eqn:Ev; eexists; (split; [reflexivity|]);
    cbn; rewrite ?Ev; repeat split.
Qed.

Lemma seek_sets_clock_and_video_witness :
  exists s',
    handleSeek 3 running = Completed s'
    /\ currentTime s' = 3
    /\ videoRef s' = Some 3
    /\ isPlaying s' = true.
Proof.
  destruct (seek_sets_clock_and_video 3 running eq_refl)
    as (s' & Hseek & Hclock & Hvideo & Hplay & _).
  exists s'. auto.
Defined.

(** Scenario F: scrubbing to three seconds while running leaves the clock
    running, at exactly three seconds. *)
Example scenario_F :
  handleSeek 3 running = Completed (mkApp (Some scenarioE) true 3 1 (Some 3) 5000).
Proof. reflexivity. Qed.

End PlaybackSpec.


(** * Signs and order of binary64 numbers

    The sign of a rounded difference, and what follows for the order:
    [a - b] is positive exactly when [b < a]. *)

Module FloatOrder.

Import FloatFacts.
Local Open Scope Z_scope.

Lemma binary_round_aux_sign s m e l :
  emin <= e ->
  sf_sign_is s (binary_round_aux prec emax s (Zpos m) e l) = true.
Proof.
  intros He. unfold binary_round_aux.
  destruct (shr_fexp_pos m e l He) as (mrs1 & e1 & E1 & (p1 & Hp1) & He1).
  rewrite E1, Hp1.
  destruct (round_nearest_even_pos p1 (loc_of_shr_record mrs1)) as (q & Hq).
  rewrite Hq.
  destruct (shr_fexp_pos q e1 loc_Exact He1) as (mrs2 & e2 & E2 & (p2 & Hp2) & He2).
  rewrite E2, Hp2.
  destruct (e2 <=? emax - prec); simpl; apply Bool.eqb_reflx.
Qed.

Lemma binary_round_sign s m e :
  emin <= e -> sf_sign_is s (binary_round prec emax s m e) = true.
Proof.
  intros He. unfold binary_round, shl_align.
  set (e' := SpecFloat.fexp prec emax (Z.pos (digits2_pos m) + e)).
  assert (emin <= e') by (subst e'; unfold SpecFloat.fexp; lia).
  destruct (e' - e); apply binary_round_aux_sign; assumption.
Qed.

Lemma binary_normalize_sign m e sz :
  m <> 0 -> emin <= e ->
  sf_sign_is (m <? 0) (binary_normalize prec emax m e sz) = true.
Proof.
  intros Hm He. destruct m; [congruence| |]; simpl; now apply binary_round_sign.
Qed.

Lemma digits2_pos_bounds m :
  2 ^ (Zpos (digits2_pos m) - 1) <= Zpos m < 2 ^ Zpos (digits2_pos m).
Proof.
  induction m as [m IH|m IH|]; simpl digits2_pos.
  - rewrite Pos2Z.inj_succ.
    replace (Z.succ (Z.pos (digits2_pos m)) - 1) with (Z.succ (Z.pos (digits2_pos m) - 1)) by lia.
    rewrite !Z.pow_succ_r by lia. lia.
  - rewrite Pos2Z.inj_succ.
    replace (Z.succ (Z.pos (digits2_pos m)) - 1) with (Z.succ (Z.pos (digits2_pos m) - 1)) by lia.
    rewrite !Z.pow_succ_r by lia. lia.
  - simpl. lia.
Qed.

Lemma iter_xO_mul m d : Zpos (Pos.iter xO m d) = Zpos m * 2 ^ Zpos d.
Proof.
  induction d as [|d IH] using Pos.peano_ind.
  - simpl. lia.
  - rewrite Pos.iter_succ, Pos2Z.inj_succ, Z.pow_succ_r by lia.
    rewrite Pos2Z.inj_xO, IH. lia.
Qed.

(** Of two canonical mantissas the one with the larger exponent is the
    larger value. *)
Lemma canonical_lt mx ex my ey d :
  SpecFloat.fexp prec emax (Zpos (digits2_pos mx) + ex) = ex ->
  SpecFloat.fexp prec emax (Zpos (digits2_pos my) + ey) = ey ->
  ey - ex = Zpos d ->
  Zpos mx < Zpos (Pos.iter xO my d).
Proof.
  intros Cx Cy Hd. rewrite iter_xO_mul.
  unfold SpecFloat.fexp, SpecFloat.emin, prec, emax in *.
  assert (Hdx : Zpos (digits2_pos mx) <= 53) by lia.
  assert (Hdy : Zpos (digits2_pos my) = 53) by lia.
  pose proof (digits2_pos_bounds mx) as [_ Hx].
  pose proof (digits2_pos_bounds my) as [Hy _].
  rewrite Hdy in Hy.
  assert (2 ^ Zpos (digits2_pos mx) <= 2 ^ 53) by (apply Z.pow_le_mono_r; lia).
  assert (2 ^ 1 <= 2 ^ Zpos d) by (apply Z.pow_le_mono_r; lia).
  change (2 ^ (53 - 1)) with 4503599627370496 in Hy.
  change (2 ^ 53) with 9007199254740992 in *.
  change (2 ^ 1) with 2 in *.
  nia.
Qed.

Lemma aligned_lt sx mx ex sy my ey :
  valid_binary (S754_finite sx mx ex) = true ->
  valid_binary (S754_finite sy my ey) = true ->
  SFltb (S754_finite sx mx ex) (S754_finite sy my ey) = true ->
  cond_Zopp sx (Zpos (fst (shl_align mx ex (Z.min ex ey))))
  < cond_Zopp sy (Zpos (fst (shl_align my ey (Z.min ex ey)))).
Proof.
  intros Vx Vy Hlt.
  simpl in Vx, Vy. unfold bounded, canonical_mantissa in Vx, Vy.
  apply andb_prop in Vx, Vy. destruct Vx as [Cx _], Vy as [Cy _].
  apply Z.eqb_eq in Cx, Cy.
  unfold SFltb in Hlt; simpl in Hlt.
  change (Pos.compare_cont Eq) with Pos.compare in Hlt.
  unfold shl_align.
  destruct (Z.compare_spec ex ey) as [E|E|E].
  - subst ey. rewrite Z.min_id, Z.sub_diag. simpl fst.
    destruct sx, sy; simpl in Hlt; try discriminate; unfold cond_Zopp;
      try lia;
      destruct (Pos.compare_spec mx my); simpl in Hlt; try discriminate; lia.
  - rewrite Z.min_l by lia. rewrite Z.sub_diag. simpl fst.
    destruct (ex - ey) as [|d|d] eqn:Ed; try lia. simpl fst.
    assert (Hd : ey - ex = Zpos d) by lia.
    pose proof (canonical_lt mx ex my ey d Cx Cy Hd).
    destruct sx, sy; simpl in Hlt; try discriminate; unfold cond_Zopp; lia.
  - rewrite Z.min_r by lia. rewrite Z.sub_diag. simpl fst.
    destruct (ey - ex) as [|d|d] eqn:Ed; try lia. simpl fst.
    assert (Hd : ex - ey = Zpos d) by lia.
    pose proof (canonical_lt my ey mx ex d Cy Cx Hd).
    destruct sx, sy; simpl in Hlt; try discriminate; unfold cond_Zopp; lia.
Qed.

Lemma finite_emin_le sx mx ex sy my ey :
  valid_binary (S754_finite sx mx ex) = true ->
  valid_binary (S754_finite sy my ey) = true ->
  emin <= Z.min ex ey.
Proof.
  intros Vx Vy.
  simpl in Vx, Vy. unfold bounded, canonical_mantissa in Vx, Vy.
  apply andb_prop in Vx, Vy. destruct Vx as [Cx _], Vy as [Cy _].
  apply Z.eqb_eq in Cx, Cy.
  unfold SpecFloat.fexp in Cx, Cy. apply Z.min_glb; lia.
Qed.

Lemma SFsub_sign x y :
  valid_binary x = true -> valid_binary y = true ->
  SFltb x y = true ->
  sf_sign_is true (SF64sub x y) = true /\ sf_sign_is false (SF64sub y x) = true.
Proof.
  intros Vx Vy Hlt.
  destruct x as [sx|sx| |sx mx ex], y as [sy|sy| |sy my ey];
    try (unfold SFltb in Hlt; simpl in Hlt; try discriminate;
         try (destruct sx; try discriminate); try (destruct sy; try discriminate);
         split; reflexivity).
  pose proof (aligned_lt sx mx ex sy my ey Vx Vy Hlt) as Hal.
  pose proof (finite_emin_le sx mx ex sy my ey Vx Vy) as He.
  unfold SF64sub, SFsub. split.
  - match goal with |- sf_sign_is _ (binary_normalize _ _ ?m ?e ?z) = true =>
      replace true with (m <? 0) at 1; [apply binary_normalize_sign|] end.
    + lia.
    + exact He.
    + apply Z.ltb_lt. lia.
  - rewrite (Z.min_comm ey ex).
    match goal with |- sf_sign_is _ (binary_normalize _ _ ?m ?e ?z) = true =>
      replace false with (m <? 0) at 1; [apply binary_normalize_sign|] end.
    + lia.
    + exact He.
    + apply Z.ltb_ge. lia.
Qed.

Lemma sf_sign_neg_ltb x : sf_sign_is true x = true -> SFltb x (S754_zero false) = true.
Proof.
  destruct x as [s|s| |s m e]; simpl; try discriminate;
    destruct s; simpl; intros; try discriminate; reflexivity.
Qed.

Lemma sf_sign_pos_ltb x : sf_sign_is false x = true -> SFltb (S754_zero false) x = true.
Proof.
  destruct x as [s|s| |s m e]; simpl; try discriminate;
    destruct s; simpl; intros; try discriminate; reflexivity.
Qed.

Lemma SFcompare_trichotomy x y :
  sf_is_nan x = false -> sf_is_nan y = false ->
  SFltb x y = true \/ SFeqb x y = true \/ SFltb y x = true.
Proof.
  intros Hx Hy. destruct (SFcompare_some x y Hx Hy) as [c Hc].
  unfold SFltb, SFeqb. rewrite (SFcompare_antisym x y), Hc.
  destruct c; simpl; auto.
Qed.

Lemma SFeqb_leb_compat t x y :
  SFeqb x y = true -> SFleb t x = SFleb t y.
Proof.
  intros H. destruct (SFeqb_cases x y H) as [->|(s & s' & -> & ->)].
  - reflexivity.
  - unfold SFleb. destruct t as [st|st| |st mt et]; simpl; reflexivity.
Qed.

Lemma SFsub_eqb_not_pos x y :
  SFeqb x y = true -> SFltb (S754_zero false) (SF64sub x y) = false.
Proof.
  intros H. destruct (SFeqb_cases x y H) as [->|(s & s' & -> & ->)].
  - destruct y as [s|s| |s m e].
    + destruct s; reflexivity.
    + destruct s; reflexivity.
    + reflexivity.
    + rewrite SFsub_self by reflexivity. reflexivity.
  - destruct s, s'; reflexivity.
Qed.

Lemma SFdiv_zero_pos d :
  SFltb (S754_zero false) d = true -> SF64div (S754_zero false) d = S754_zero false.
Proof.
  destruct d as [s|s| |s m e]; simpl; try discriminate;
    destruct s; simpl; intros; try discriminate; reflexivity.
Qed.

Lemma SFmul_zero_l x :
  sf_is_finite x = true -> exists s, SF64mul (S754_zero false) x = S754_zero s.
Proof.
  destruct x; simpl; try discriminate; eauto.
Qed.

Local Open Scope float_scope.

Lemma sub_neg a b : (a <? b) = true -> (a - b <? 0) = true.
Proof.
  rewrite !ltb_spec, sub_spec, Prim2SF_zero. intros H.
  apply sf_sign_neg_ltb, SFsub_sign; auto using Prim2SF_valid.
Qed.

Lemma sub_pos a b : (a <? b) = true -> (0 <? b - a) = true.
Proof.
  rewrite !ltb_spec, sub_spec, Prim2SF_zero. intros H.
  apply sf_sign_pos_ltb. eapply SFsub_sign; eauto using Prim2SF_valid.
Qed.

Lemma trichotomy a b :
  is_nan a = false -> is_nan b = false ->
  (a <? b) = true \/ (a =? b) = true \/ (b <? a) = true.
Proof.
  rewrite !is_nan_spec, !ltb_spec, eqb_spec. apply SFcompare_trichotomy.
Qed.

Lemma eqb_leb_compat t a b : (a =? b) = true -> (t <=? a) = (t <=? b).
Proof. rewrite eqb_spec, !leb_spec. apply SFeqb_leb_compat. Qed.

Lemma nan_leb_l a b : is_nan a = true -> (a <=? b) = false.
Proof.
  intros H. destruct (a <=? b) eqn:E; [|reflexivity].
  apply leb_not_nan in E. destruct E; congruence.
Qed.

Lemma nan_leb_r a b : is_nan b = true -> (a <=? b) = false.
Proof.
  intros H. destruct (a <=? b) eqn:E; [|reflexivity].
  apply leb_not_nan in E. destruct E; congruence.
Qed.

Lemma nan_ltb_l a b : is_nan a = true -> (a <? b) = false.
Proof.
  intros H. destruct (a <? b) eqn:E; [|reflexivity].
  apply ltb_not_nan in E. destruct E; congruence.
Qed.

Lemma sub_eqb_not_pos a b : (a =? b) = true -> (0 <? a - b) = false.
Proof.
  rewrite eqb_spec, ltb_spec, sub_spec, Prim2SF_zero. apply SFsub_eqb_not_pos.
Qed.

(** The comparator [a - b] is positive exactly when [b < a]. *)
Lemma sub_pos_iff a b :
  is_nan a = false -> is_nan b = false -> (0 <? a - b) = (b <? a).
Proof.
  intros Ha Hb. destruct (trichotomy a b Ha Hb) as [H|[H|H]].
  - rewrite (leb_antisym _ _ (ltb_leb _ _ H)).
    apply leb_antisym, ltb_leb, sub_neg, H.
  - rewrite (sub_eqb_not_pos _ _ H), (eqb_ltb_compat b a b H). symmetry.
    apply ltb_irrefl.
  - rewrite H. apply sub_pos, H.
Qed.

Lemma zero_div_pos d : (0 <? d) = true -> 0 / d = 0.
Proof.
  rewrite ltb_spec, Prim2SF_zero. intros H. apply Prim2SF_inj.
  rewrite div_spec, Prim2SF_zero. now apply SFdiv_zero_pos.
Qed.

Lemma add_zero_mul prev speed :
  is_nan prev = false -> is_finite speed = true ->
  (prev + 0 * speed =? prev) = true.
Proof.
  rewrite is_nan_spec, is_finite_spec, eqb_spec, add_spec, mul_spec, Prim2SF_zero.
  intros Hp Hs. destruct (SFmul_zero_l _ Hs) as [s ->]. now apply SFadd_zero.
Qed.

Lemma leb_refl a : is_nan a = false -> (a <=? a) = true.
Proof.
  rewrite is_nan_spec, leb_spec. intros H. unfold SFleb. now rewrite SFcompare_refl.
Qed.

Lemma eqb_refl a : is_nan a = false -> (a =? a) = true.
Proof.
  rewrite is_nan_spec, eqb_spec. intros H. unfold SFeqb. now rewrite SFcompare_refl.
Qed.

End FloatOrder.

(** * The sort of the keyframes *)

Module SortFacts.

Import FloatFacts FloatOrder.
Local Open Scope float_scope.

Lemma insertSorted_perm {A} (comparefn : A -> A -> number) x (l : list A) :
  Permutation (x :: l) (insertSorted comparefn x l).
Proof.
  induction l as [|y rest IH]; simpl; [reflexivity|].
  destruct (0 <? comparefn x y); [|reflexivity].
  rewrite perm_swap. now apply perm_skip.
Qed.

Lemma array_sort_perm {A} (comparefn : A -> A -> number) (l : list A) :
  Permutation l (array_sort comparefn l).
Proof.
  induction l as [|x l IH]; simpl; [reflexivity|].
  rewrite <- insertSorted_perm. now apply perm_skip.
Qed.

Lemma timestampsNotNaN_Forall l :
  timestampsNotNaN l = true <-> Forall (fun f => is_nan (timeOffset f) = false) l.
Proof.
  unfold timestampsNotNaN. rewrite forallb_forall, Forall_forall.
  split; intros H f Hf; specialize (H f Hf).
  - now apply negb_true_iff in H.
  - now apply negb_true_iff.
Qed.

Lemma timestampsNotNaN_perm l l' :
  Permutation l l' -> timestampsNotNaN l = timestampsNotNaN l'.
Proof.
  intros HP. apply eq_true_iff_eq. rewrite !timestampsNotNaN_Forall.
  split; intros H; [rewrite <- HP | rewrite HP]; exact H.
Qed.

Lemma byTimeOffset_pos a b :
  is_nan (timeOffset a) = false -> is_nan (timeOffset b) = false ->
  (0 <? byTimeOffset a b) = (timeOffset b <? timeOffset a).
Proof. apply sub_pos_iff. Qed.

Lemma sorted_cons y l : sortedByTime (y :: l) = headLe y l && sortedByTime l.
Proof. destruct l; reflexivity. Qed.

Lemma headLe_insert y x l :
  (timeOffset y <=? timeOffset x) = true -> headLe y l = true ->
  headLe y (insertSorted byTimeOffset x l) = true.
Proof.
  destruct l as [|z l]; simpl; auto.
  destruct (0 <? byTimeOffset x z); simpl; auto.
Qed.

Lemma insertSorted_sorted x l :
  is_nan (timeOffset x) = false -> timestampsNotNaN l = true ->
  sortedByTime l = true -> sortedByTime (insertSorted byTimeOffset x l) = true.
Proof.
  intros Hx. induction l as [|y rest IH]; intros Hn Hs; [reflexivity|].
  cbn [timestampsNotNaN forallb] in Hn. apply andb_true_iff in Hn as [Hy Hn].
  apply negb_true_iff in Hy.
  rewrite sorted_cons in Hs. apply andb_true_iff in Hs as [Hh Hs].
  cbn [insertSorted]. rewrite (byTimeOffset_pos x y Hx Hy).
  destruct (timeOffset y <? timeOffset x) eqn:E.
  - rewrite sorted_cons, (IH Hn Hs), andb_true_r.
    apply headLe_insert; auto using ltb_leb.
  - rewrite sorted_cons, sorted_cons, Hh, Hs. cbn [headLe].
    now rewrite (leb_total _ _ Hx Hy E).
Qed.

Lemma array_sort_sorted l :
  timestampsNotNaN l = true -> sortedByTime (array_sort byTimeOffset l) = true.
Proof.
  induction l as [|x l IH]; intros Hn; [reflexivity|].
  cbn [timestampsNotNaN forallb] in Hn. apply andb_true_iff in Hn as [Hx Hn].
  apply negb_true_iff in Hx. cbn [array_sort fold_right].
  apply insertSorted_sorted; [exact Hx| |].
  - fold (array_sort byTimeOffset l).
    now rewrite <- (timestampsNotNaN_perm _ _ (array_sort_perm byTimeOffset l)).
  - now apply IH.
Qed.

End SortFacts.

(** * The interpolator at its edges and on its samples *)

Module InterpolatorEdges.

Import FloatFacts FloatOrder ArrayFacts InterpolatorFacts InterpolatorSpec.
Local Open Scope float_scope.

Lemma findIndex_none {A} (p : A -> bool) (a : list A) :
  (forall x, In x a -> p x = false) -> findIndex p a = (-1)%Z.
Proof.
  induction a as [|x a IH]; intros H; simpl findIndex; [reflexivity|].
  rewrite (H x) by (simpl; auto).
  rewrite IH by (intros y Hy; apply H; simpl; auto). reflexivity.
Qed.

Lemma strict_sorted frames :
  strictlySortedByTime frames = true -> sortedByTime frames = true.
Proof.
  induction frames as [|a [|b rest] IH]; intros H; try reflexivity.
  change (((timeOffset a <? timeOffset b) && strictlySortedByTime (b :: rest)) = true) in H.
  apply andb_true_iff in H as [Hab H].
  change (((timeOffset a <=? timeOffset b) && sortedByTime (b :: rest)) = true).
  now rewrite (ltb_leb _ _ Hab), IH.
Qed.

Lemma strict_next frames : forall i a b,
  strictlySortedByTime frames = true ->
  nth_error frames i = Some a -> nth_error frames (S i) = Some b ->
  (timeOffset a <? timeOffset b) = true.
Proof.
  induction frames as [|x [|y rest] IH]; intros i a b H Ha Hb.
  - destruct i; discriminate.
  - destruct i as [|[|i]]; discriminate.
  - change (((timeOffset x <? timeOffset y) && strictlySortedByTime (y :: rest)) = true) in H.
    apply andb_true_iff in H as [Hxy H].
    destruct i as [|i].
    + simpl in Ha, Hb. congruence.
    + apply (IH i); assumption.
Qed.

Lemma strict_nth frames : forall i j a b,
  strictlySortedByTime frames = true -> (i < j)%nat ->
  nth_error frames i = Some a -> nth_error frames j = Some b ->
  (timeOffset a <? timeOffset b) = true.
Proof.
  intros i j. revert i. induction j as [|j IH]; intros i a b Hs Hij Ha Hb; [lia|].
  assert (Hj : exists c, nth_error frames j = Some c).
  { destruct (nth_error frames j) eqn:E; eauto.
    apply nth_error_None in E.
    assert (S j < List.length frames)%nat by (apply nth_error_Some; congruence). lia. }
  destruct Hj as [c Hc].
  pose proof (strict_next frames j c b Hs Hc Hb) as Hcb.
  destruct (Nat.eq_dec i j) as [->|Nij].
  - congruence.
  - eapply ltb_leb_trans; [|apply ltb_leb; exact Hcb].
    apply (IH i); auto. lia.
Qed.

(** Between consecutive keyframes of a sorted sequence, when the first
    clamp does not apply: the bracket may be closed on the left. *)
Lemma interpolate_at_bracket time result i first prevFrame nextFrame :
  sortedByTime (keyframes result) = true ->
  firstFrame (keyframes result) = Some first ->
  nth_error (keyframes result) i = Some prevFrame ->
  nth_error (keyframes result) (S i) = Some nextFrame ->
  (timeOffset first <? time) = true ->
  (timeOffset prevFrame <=? time) = true ->
  (time <? timeOffset nextFrame) = true ->
  getCurrentInterpolatedFrame time result
  = Returned (Some (interpolateBetween time prevFrame nextFrame)).
Proof.
  intros Hs Hf Hp Hn Hfirst Hlo Hhi.
  assert (Hne : keyframes result <> []).
  { intros E. rewrite E in Hp. destruct i; discriminate. }
  destruct (frames_ends _ Hne) as (first' & last & Hf' & Hl).
  assert (first' = first) by congruence. subst first'.
  rewrite (interpolate_unfold time result first last Hf Hl).
  rewrite (ltb_antisym _ _ Hfirst).
  assert (Hlast : (timeOffset last <=? time) = false).
  { apply ltb_antisym. unfold lastFrame in Hl.
    destruct (keyframes result) as [|x rest] eqn:E; [congruence|].
    rewrite array_get_last in Hl.
    destruct (Nat.eq_dec (S i) (List.length rest)) as [Elen|Nlen].
    - rewrite <- Elen in Hl. congruence.
    - eapply ltb_leb_trans; [exact Hhi|].
      eapply (sorted_nth _ (S i) (List.length rest)); eauto.
      assert (S i < List.length (x :: rest))%nat
        by (apply nth_error_Some; congruence).
      simpl in H. lia. }
  rewrite Hlast. cbv zeta.
  assert (Hidx : findIndex (fun f => time <? timeOffset f) (keyframes result)
                 = Z.of_nat (S i)).
  { eapply findIndex_first; [exact Hn|exact Hhi|].
    intros k y Hk Hy. apply leb_antisym.
    destruct (Nat.eq_dec k i) as [->|Nk].
    - congruence.
    - eapply leb_trans; [|exact Hlo].
      eapply (sorted_nth _ k i); eauto. lia. }
  rewrite Hidx.
  destruct (Z.eqb_spec (Z.of_nat (S i)) (-1)) as [E|_]; [lia|].
  rewrite array_get_pred, array_get_of_nat, Hp, Hn. reflexivity.
Qed.

(** At [prevFrame]'s own (finite) timestamp the factor is exactly [0]. *)
Lemma interpolationFactor_at_prev prevFrame nextFrame :
  is_finite (timeOffset prevFrame) = true ->
  (timeOffset prevFrame <? timeOffset nextFrame) = true ->
  interpolationFactor (timeOffset prevFrame) prevFrame nextFrame = 0.
Proof.
  intros Hfin Hlt. unfold interpolationFactor.
  rewrite (sub_neq_zero _ _ Hlt), (sub_self _ Hfin).
  apply zero_div_pos, sub_pos, Hlt.
Qed.

Lemma samePlayer_refl p :
  is_nan (Player.x p) = false -> is_nan (Player.y p) = false ->
  samePlayer p p = true.
Proof.
  intros Hx Hy. unfold samePlayer.
  now rewrite String.eqb_refl, (eqb_refl _ Hx), (eqb_refl _ Hy).
Qed.

Lemma sameTeam_refl team :
  (forall c, In c (flat_map playerCoords team) -> is_nan c = false) ->
  sameTeam team team = true.
Proof.
  induction team as [|p team IH]; intros H; [reflexivity|].
  cbn [sameTeam]. rewrite IH.
  - rewrite samePlayer_refl; [reflexivity| |]; apply H; simpl; auto.
  - intros c Hc. apply H. simpl. auto.
Qed.

Lemma noNaNCoords_spec f :
  noNaNCoords f = true -> forall c, In c (coords f) -> is_nan c = false.
Proof.
  unfold noNaNCoords. rewrite forallb_forall. intros H c Hc.
  now apply negb_true_iff, H.
Qed.

Lemma samePositions_refl f : noNaNCoords f = true -> samePositions f f = true.
Proof.
  intros H. pose proof (noNaNCoords_spec f H) as Hc. unfold samePositions.
  rewrite !eqb_refl, !sameTeam_refl; try reflexivity.
  - intros c Hin. apply Hc. unfold coords. rewrite !in_app_iff. auto.
  - intros c Hin. apply Hc. unfold coords. rewrite !in_app_iff. auto.
  - apply Hc. unfold coords. simpl. auto.
  - apply Hc. unfold coords. simpl. auto.
Qed.

Lemma interpolatePlayer_zero nextTeam p1 :
  (forall a b, In a (playerCoords p1) -> In b (flat_map playerCoords nextTeam) ->
               is_finite (b - a) = true) ->
  is_nan (Player.x p1) = false -> is_nan (Player.y p1) = false ->
  samePlayer (interpolatePlayer 0 nextTeam p1) p1 = true.
Proof.
  intros Hspan Hx Hy. unfold interpolatePlayer.
  destruct (find _ nextTeam) as [p2|] eqn:Ef.
  - apply find_some in Ef. destruct Ef as [Hp2 _].
    unfold samePlayer. cbn [Player.id Player.x Player.y].
    rewrite String.eqb_refl, !lerp_zero; [reflexivity| |].
    + apply Hspan; [simpl; auto|]. apply in_flat_map. exists p2. simpl. auto.
    + apply Hspan; [simpl; auto|]. apply in_flat_map. exists p2. simpl. auto.
  - now apply samePlayer_refl.
Qed.

Lemma sameTeam_zero nextTeam prevTeam :
  (forall a b, In a (flat_map playerCoords prevTeam) ->
               In b (flat_map playerCoords nextTeam) ->
               is_finite (b - a) = true) ->
  (forall a, In a (flat_map playerCoords prevTeam) -> is_nan a = false) ->
  sameTeam (map (interpolatePlayer 0 nextTeam) prevTeam) prevTeam = true.
Proof.
  induction prevTeam as [|p team IH]; intros Hspan Hnan; [reflexivity|].
  cbn [map sameTeam]. rewrite IH.
  - rewrite interpolatePlayer_zero; [reflexivity| | |].
    + intros a b Ha Hb. apply Hspan; [|exact Hb]. cbn [flat_map]. rewrite in_app_iff. auto.
    + apply Hnan. simpl. auto.
    + apply Hnan. simpl. auto.
  - intros a b Ha Hb. apply Hspan; [|exact Hb]. cbn [flat_map]. rewrite in_app_iff. auto.
  - intros a Ha. apply Hnan. cbn [flat_map]. rewrite in_app_iff. auto.
Qed.

Lemma interpolateBetween_zero time prevFrame nextFrame :
  interpolationFactor time prevFrame nextFrame = 0 ->
  finiteSpan prevFrame nextFrame = true ->
  samePositions (interpolateBetween time prevFrame nextFrame) prevFrame = true.
Proof.
  intros Ht Hspan. pose proof (finiteSpan_spec _ _ Hspan) as Hfin.
  pose proof (fun a => finiteSpan_not_nan prevFrame nextFrame a Hspan) as Hnan.
  unfold samePositions, interpolateBetween. rewrite Ht.
  cbn [ball teamRed teamBlue Position.x Position.y].
  rewrite !lerp_zero, !sameTeam_zero; try reflexivity.
  - intros a b Ha Hb. apply Hfin; unfold coords; rewrite !in_app_iff; auto.
  - intros a Ha. apply Hnan. unfold coords. rewrite !in_app_iff. auto.
  - intros a b Ha Hb. apply Hfin; unfold coords; rewrite !in_app_iff; auto.
  - intros a Ha. apply Hnan. unfold coords. rewrite !in_app_iff. auto.
  - apply Hfin; unfold coords; simpl; auto.
  - apply Hfin; unfold coords; simpl; auto.
Qed.

Lemma is_finite_not_nan a : is_finite a = true -> is_nan a = false.
Proof.
  rewrite is_finite_spec, is_nan_spec. now destruct (Prim2SF a).
Qed.

(** X1.  A query time that is not a number falls through both clamps and the
    search, and the last keyframe is returned. *)
Theorem nan_time_gives_last_keyframe :
  forall time result last,
    is_nan time = true ->
    lastFrame (keyframes result) = Some last ->
    getCurrentInterpolatedFrame time result = Returned (Some last).
Proof.
  intros time result last Hnan Hl.
  assert (Hne : keyframes result <> []).
  { intros E. rewrite E in Hl. discriminate. }
  destruct (frames_ends _ Hne) as (first & last' & Hf & Hl').
  assert (last' = last) by congruence. subst last'.
  rewrite (interpolate_unfold time result first last Hf Hl).
  rewrite (nan_leb_l _ _ Hnan), (nan_leb_r _ _ Hnan). cbv zeta.
  rewrite findIndex_none; [reflexivity|].
  intros f _. now apply nan_ltb_l.
Qed.

Lemma nan_time_gives_last_keyframe_witness :
  getCurrentInterpolatedFrame nan passPlay = Returned (Some kfThrow).
Proof.
  apply (nan_time_gives_last_keyframe nan passPlay kfThrow); reflexivity.
Defined.

(** X2.  A result with a single keyframe shows that keyframe at every time,
    whatever the time and the keyframe's timestamp are. *)
Theorem single_keyframe_at_every_time :
  forall time summary formation playType k,
    getCurrentInterpolatedFrame
      time (mkAnalysisResult summary formation playType [k])
    = Returned (Some k).
Proof.
  intros time s f p k.
  rewrite (interpolate_unfold time (mkAnalysisResult s f p [k]) k k eq_refl eq_refl).
  cbn [keyframes].
  destruct (time <=? timeOffset k) eqn:E1; [reflexivity|].
  destruct (timeOffset k <=? time) eqn:E2; [reflexivity|].
  cbv zeta. cbn [findIndex].
  destruct (time <? timeOffset k) eqn:E3.
  - apply ltb_leb in E3. congruence.
  - reflexivity.
Qed.

(** X3.  Playback passes through the samples: for keyframes with strictly
    increasing timestamps, at the timestamp of a keyframe the function
    returns that keyframe's ball and players (same ids, numerically equal
    coordinates), whether through a clamp or through the interpolation,
    whose factor is then exactly zero. *)
Theorem keyframe_time_shows_keyframe :
  forall result i k,
    strictlySortedByTime (keyframes result) = true ->
    nth_error (keyframes result) i = Some k ->
    is_finite (timeOffset k) = true ->
    noNaNCoords k = true ->
    (forall next, nth_error (keyframes result) (S i) = Some next ->
                  finiteSpan k next = true) ->
    exists frame,
      getCurrentInterpolatedFrame (timeOffset k) result = Returned (Some frame)
      /\ samePositions frame k = true.
Proof.
  intros result i k Hstrict Hk Hfin Hcoords Hspan.
  pose proof (strict_sorted _ Hstrict) as Hs.
  pose proof (is_finite_not_nan _ Hfin) as Hnan.
  assert (Hne : keyframes result <> []).
  { intros E. rewrite E in Hk. destruct i; discriminate. }
  destruct (frames_ends _ Hne) as (first & last & Hf & Hl).
  destruct i as [|i].
  - (* the first keyframe: the lower clamp *)
    exists k. split; [|now apply samePositions_refl].
    rewrite (interpolate_unfold _ result first last Hf Hl).
    unfold firstFrame in Hf. rewrite (array_get_of_nat _ 0) in Hf.
    assert (first = k) by congruence. subst first.
    now rewrite (leb_refl _ Hnan).
  - assert (Hfirst : (timeOffset first <? timeOffset k) = true).
    { unfold firstFrame in Hf. rewrite (array_get_of_nat _ 0) in Hf.
      apply (strict_nth (keyframes result) 0 (S i)); auto. lia. }
    destruct (nth_error (keyframes result) (S (S i))) as [next|] eqn:En.
    + (* an inner keyframe: interpolation with factor 0 *)
      pose proof (strict_next _ _ _ _ Hstrict Hk En) as Hlt.
      exists (interpolateBetween (timeOffset k) k next). split.
      * apply (interpolate_at_bracket _ result (S i) first); auto.
        now apply leb_refl.
      * apply interpolateBetween_zero; [|now apply Hspan].
        now apply interpolationFactor_at_prev.
    + (* the last keyframe: the upper clamp *)
      exists k. split; [|now apply samePositions_refl].
      rewrite (interpolate_unfold _ result first last Hf Hl).
      rewrite (ltb_antisym _ _ Hfirst).
      assert (last = k).
      { unfold lastFrame in Hl.
        destruct (keyframes result) as [|x rest] eqn:E; [congruence|].
        rewrite array_get_last in Hl. apply nth_error_None in En.
        assert (S i < List.length (x :: rest))%nat
          by (apply nth_error_Some; congruence).
        simpl in En, H.
        assert (List.length rest = S i) by lia. congruence. }
      subst last. now rewrite (leb_refl _ Hnan).
Qed.

Lemma keyframe_time_shows_keyframe_witness :
  exists frame,
    getCurrentInterpolatedFrame 2 longPass = Returned (Some frame)
    /\ samePositions frame kfThrow = true.
Proof.
  apply (keyframe_time_shows_keyframe longPass 1 kfThrow); try reflexivity.
  intros next Hnext. injection Hnext as <-. reflexivity.
Defined.

(** X4.  Strictly inside a bracket of sorted keyframes, a player of
    [prevFrame] whose id occurs in the same team of [nextFrame] keeps its id
    and is placed by [lerp] between its own position and that of the first
    player with this id in [nextFrame]'s team, at the fraction of the
    bracket that has elapsed; later players with the same id, and the other
    team, play no part. *)
Theorem matched_player_moves_to_first_match :
  forall time result i prevFrame nextFrame team k p1 before p2 after,
    sortedByTime (keyframes result) = true ->
    nth_error (keyframes result) i = Some prevFrame ->
    nth_error (keyframes result) (S i) = Some nextFrame ->
    (timeOffset prevFrame <? time) = true ->
    (time <? timeOffset nextFrame) = true ->
    team = teamRed \/ team = teamBlue ->
    nth_error (team prevFrame) k = Some p1 ->
    team nextFrame = before ++ p2 :: after ->
    hasId (Player.id p1) before = false ->
    Player.id p2 = Player.id p1 ->
    exists frame,
      getCurrentInterpolatedFrame time result = Returned (Some frame)
      /\ nth_error (team frame) k
         = Some (Player.mk
                   (Player.id p1)
                   (lerp (Player.x p1) (Player.x p2)
                         ((time - timeOffset prevFrame)
                          / (timeOffset nextFrame - timeOffset prevFrame)))
                   (lerp (Player.y p1) (Player.y p2)
                         ((time - timeOffset prevFrame)
                          / (timeOffset nextFrame - timeOffset prevFrame)))).
Proof.
  intros time result i prevFrame nextFrame team k p1 before p2 after
         Hs Hp Hn Hlo Hhi Hteam Hk Hsplit Hbefore Hid.
  exists (interpolateBetween time prevFrame nextFrame).
  split; [now apply (interpolate_in_bracket time result i)|].
  assert (Hfind : find (fun p => String.eqb (Player.id p) (Player.id p1))
                       (team nextFrame) = Some p2).
  { rewrite Hsplit. clear Hsplit. induction before as [|q before IH].
    - simpl. now rewrite Hid, String.eqb_refl.
    - simpl in Hbefore |- *. apply orb_false_iff in Hbefore as [Hq Hbefore].
      rewrite Hq. now apply IH. }
  rewrite <- (interpolationFactor_quotient time prevFrame nextFrame
                (ltb_leb _ _ Hlo) Hhi).
  destruct Hteam as [-> | ->]; unfold interpolateBetween;
    cbn [teamRed teamBlue]; rewrite nth_error_map, Hk; cbn [option_map];
    unfold interpolatePlayer; now rewrite Hfind.
Qed.

Lemma matched_player_moves_to_first_match_witness :
  exists frame,
    getCurrentInterpolatedFrame 3 longPass = Returned (Some frame)
    /\ nth_error (teamRed frame) 0 = Some (Player.mk "QB" 17 26).
Proof.
  apply (matched_player_moves_to_first_match
           3 longPass 1 kfThrow kfCatch teamRed 0
           (Player.mk "QB" 18 26) [] (Player.mk "QB" 16 26)
           [Player.mk "QB" 99 99; Player.mk "TE" 40 30]);
    try reflexivity.
  now left.
Defined.

End InterpolatorEdges.

(** * Runs of the playback clock *)

Module PlaybackRuns.

Import FloatFacts FloatOrder ArrayFacts InterpolatorFacts PlaybackSpec.
Local Open Scope float_scope.
#[local] Set Warnings "-inexact-float".

Lemma SFsub_self_not_finite x :
  sf_is_finite x = false -> SF64sub x x = S754_nan.
Proof. destruct x as [s|[]| |s m e]; simpl; try discriminate; reflexivity. Qed.

(** No number is more than half a second away from itself, whatever it
    is. *)
Lemma abs_sub_self_small a : (0.5 <? abs (a - a)) = false.
Proof.
  destruct (is_finite a) eqn:E.
  - now rewrite (sub_self _ E).
  - rewrite ltb_spec, abs_spec, sub_spec.
    rewrite is_finite_spec in E. now rewrite (SFsub_self_not_finite _ E).
Qed.

(** Numerically equal numbers are finite together. *)
Lemma eqb_is_finite a b : (a =? b) = true -> is_finite a = is_finite b.
Proof.
  rewrite eqb_spec, !is_finite_spec. intros H.
  destruct (SFeqb_cases _ _ H) as [->|(s & s' & -> & ->)]; reflexivity.
Qed.

Lemma first_advance timestamp prev speed :
  is_finite timestamp = true -> is_nan prev = false -> is_finite speed = true ->
  (prev + deltaTimeOf 0 timestamp * speed =? prev) = true.
Proof.
  intros Ht Hp Hs. rewrite deltaTimeOf_first; [|reflexivity|exact Ht].
  now apply add_zero_mul.
Qed.

(** The synchronisation returns when there is no video to move or the
    time to move it to is finite. *)
Lemma syncVideo_returns nextTime video :
  video = None \/ is_finite nextTime = true ->
  exists video', syncVideo nextTime video = Returned video'.
Proof.
  intros [->|Hfin]; [cbn; eauto|]. rewrite (syncVideo_finite _ _ Hfin). eauto.
Qed.

(** The first tick of a run whose clock is a number: where the clock is
    compared with the last timestamp, and what state is left. *)
Lemma first_tick timestamp s result maxFrame :
  reachable s ->
  isPlaying s = false ->
  analysisResult s = Some result ->
  lastFrame (keyframes result) = Some maxFrame ->
  is_finite timestamp = true ->
  is_finite (playbackSpeed s) = true ->
  is_nan (currentTime s) = false ->
  videoRef s = None \/ is_finite (currentTime s) = true ->
  exists advanced video,
    (advanced =? currentTime s) = true
    /\ tick timestamp (setIsPlaying true s)
       = Returned
           (if timeOffset maxFrame <=? currentTime s
            then mkApp (Some result) false (timeOffset maxFrame)
                       (playbackSpeed s) video 0
            else mkApp (Some result) true advanced
                       (playbackSpeed s) video timestamp).
Proof.
  intros Hr Hstop Hres Hl Hts Hsp Hcur Hvideo.
  rewrite (run_start s Hr Hstop).
  pose proof (first_advance timestamp (currentTime s) (playbackSpeed s)
                Hts Hcur Hsp) as Hadv.
  set (advanced := currentTime s + deltaTimeOf 0 timestamp * playbackSpeed s) in *.
  destruct (syncVideo_returns advanced (videoRef s)) as [video Hsync].
  { destruct Hvideo as [Hnone|Hfin]; [now left|right].
    now rewrite (eqb_is_finite _ _ Hadv). }
  exists advanced, video. split; [exact Hadv|].
  rewrite (tick_running
             timestamp
             (mkApp (analysisResult s) true (currentTime s) (playbackSpeed s)
                    (videoRef s) 0)
             result maxFrame video eq_refl Hres Hl Hsync).
  cbn [analysisResult currentTime playbackSpeed lastFrameTimeRef].
  fold advanced. now rewrite (eqb_leb_compat _ _ _ Hadv), Hres.
Qed.

(** X5.  Resuming does not count the pause.  When play is pressed on a
    stopped component whose clock is before the last timestamp (and
    finite, when a video is mounted), the first tick, at whatever
    timestamp it comes, leaves the clock where it was and keeps the run
    going: time only advances from the second tick on. *)
Theorem first_tick_keeps_clock :
  forall timestamp s result maxFrame,
    reachable s ->
    isPlaying s = false ->
    analysisResult s = Some result ->
    lastFrame (keyframes result) = Some maxFrame ->
    is_finite timestamp = true ->
    is_finite (playbackSpeed s) = true ->
    videoRef s = None \/ is_finite (currentTime s) = true ->
    (currentTime s <? timeOffset maxFrame) = true ->
    exists s',
      tick timestamp (setIsPlaying true s) = Returned s'
      /\ isPlaying s' = true
      /\ (currentTime s' =? currentTime s) = true
      /\ lastFrameTimeRef s' = timestamp.
Proof.
  intros timestamp s result maxFrame Hr Hstop Hres Hl Hts Hsp Hvideo Hlt.
  destruct (ltb_not_nan _ _ Hlt) as [Hcur _].
  destruct (first_tick timestamp s result maxFrame
              Hr Hstop Hres Hl Hts Hsp Hcur Hvideo)
    as (advanced & video & Hadv & Htick).
  rewrite (ltb_antisym _ _ Hlt) in Htick.
  eexists. split; [exact Htick|]. cbn. auto.
Qed.

Lemma first_tick_keeps_clock_witness :
  exists s',
    tick 7000
         (setIsPlaying true
            (stateAfter (handleSeek 1 (analysisSucceeded scenarioA initialApp))))
    = Returned s'
    /\ isPlaying s' = true
    /\ (currentTime s' =? 1) = true
    /\ lastFrameTimeRef s' = 7000.
Proof.
  apply (first_tick_keeps_clock
           7000 (stateAfter (handleSeek 1 (analysisSucceeded scenarioA initialApp)))
           scenarioA kfA2); try reflexivity.
  - apply reach_seek, reach_analysis, reach_initial.
  - now left.
Defined.

(** X6.  Pressing play at the end does not replay.  When play is pressed
    on a stopped component whose clock is at or after the last timestamp
    (and finite, when a video is mounted), the first tick puts the clock
    on the last timestamp and stops the run again. *)
Theorem play_at_end_stops_at_once :
  forall timestamp s result maxFrame,
    reachable s ->
    isPlaying s = false ->
    analysisResult s = Some result ->
    lastFrame (keyframes result) = Some maxFrame ->
    is_finite timestamp = true ->
    is_finite (playbackSpeed s) = true ->
    videoRef s = None \/ is_finite (currentTime s) = true ->
    (timeOffset maxFrame <=? currentTime s) = true ->
    exists s',
      tick timestamp (setIsPlaying true s) = Returned s'
      /\ isPlaying s' = false
      /\ currentTime s' = timeOffset maxFrame
      /\ lastFrameTimeRef s' = 0.
Proof.
  intros timestamp s result maxFrame Hr Hstop Hres Hl Hts Hsp Hvideo Hle.
  destruct (leb_not_nan _ _ Hle) as [_ Hcur].
  destruct (first_tick timestamp s result maxFrame
              Hr Hstop Hres Hl Hts Hsp Hcur Hvideo)
    as (advanced & video & Hadv & Htick).
  rewrite Hle in Htick.
  eexists. split; [exact Htick|]. cbn. auto.
Qed.

Lemma play_at_end_stops_at_once_witness :
  exists s',
    tick 7000
         (setIsPlaying true
            (stateAfter (handleSeek 2 (analysisSucceeded scenarioA initialApp))))
    = Returned s'
    /\ isPlaying s' = false
    /\ currentTime s' = 2
    /\ lastFrameTimeRef s' = 0.
Proof.
  apply (play_at_end_stops_at_once
           7000 (stateAfter (handleSeek 2 (analysisSucceeded scenarioA initialApp)))
           scenarioA kfA2); try reflexivity.
  - apply reach_seek, reach_analysis, reach_initial.
  - now left.
Defined.

(** Why the clock has to be finite when a video is mounted: after a scrub
    to [-Infinity] (which throws, with the clock set) the first tick of
    the next run has to move the video to [-Infinity], and throws. *)
Example first_tick_at_infinite_clock_throws :
  reachable (stateAfter (handleSeek neg_infinity
                           (analysisSucceeded scenarioA (videoMounted initialApp))))
  /\ tick 7000
          (setIsPlaying true
             (stateAfter (handleSeek neg_infinity
                            (analysisSucceeded scenarioA (videoMounted initialApp)))))
     = TypeError.
Proof.
  split; [|reflexivity].
  apply reach_seek, reach_analysis, reach_mounted, reach_initial.
Qed.

(** X7.  After a tick that stays below the last timestamp, at a finite
    advanced time, a mounted video is never more than half a second away
    from the clock's new time: it was either within that distance already
    or has been moved onto the clock. *)
Theorem video_within_tolerance_after_tick :
  forall timestamp s result maxFrame videoTime,
    isPlaying s = true ->
    analysisResult s = Some result ->
    lastFrame (keyframes result) = Some maxFrame ->
    videoRef s = Some videoTime ->
    is_finite (currentTime s
               + deltaTimeOf (lastFrameTimeRef s) timestamp * playbackSpeed s)
    = true ->
    (timeOffset maxFrame
     <=? currentTime s + deltaTimeOf (lastFrameTimeRef s) timestamp * playbackSpeed s)
    = false ->
    exists s' videoTime',
      tick timestamp s = Returned s'
      /\ videoRef s' = Some videoTime'
      /\ (0.5 <? abs (videoTime' - currentTime s')) = false.
Proof.
  intros timestamp s result maxFrame videoTime Hp Hres Hl Hv Hfin Hbelow.
  destruct (tick_video_follows_clock timestamp s result maxFrame videoTime
              Hp Hres Hl Hv Hfin Hbelow) as (s' & Htick & Hvideo).
  exists s'. eexists. split; [exact Htick|]. split; [exact Hvideo|].
  destruct (0.5 <? abs (videoTime - currentTime s')) eqn:E.
  - apply abs_sub_self_small.
  - exact E.
Qed.

Lemma video_within_tolerance_after_tick_witness :
  exists s' videoTime',
    tick 16 (mediaAt 10.9) = Returned s'
    /\ videoRef s' = Some videoTime'
    /\ (0.5 <? abs (videoTime' - currentTime s')) = false.
Proof.
  apply (video_within_tolerance_after_tick 16 (mediaAt 10.9) scenarioE kfE20 10.9);
    reflexivity.
Defined.

End PlaybackRuns.

(** * The analysis service *)

Module ServiceSpec.

Import FloatFacts FloatOrder SortFacts.
Local Open Scope float_scope.

(** ** The sort *)

(** X8.  For timestamps that are numbers, the sort the service applies
    leaves the keyframes in ascending order of [timeOffset], and it only
    reorders them: the sorted array is a permutation of the given one. *)
Theorem sort_orders_keyframes :
  forall frames,
    timestampsNotNaN frames = true ->
    sortedByTime (array_sort byTimeOffset frames) = true
    /\ Permutation frames (array_sort byTimeOffset frames).
Proof.
  intros frames Hn. split.
  - now apply array_sort_sorted.
  - apply array_sort_perm.
Qed.

Lemma sort_orders_keyframes_witness :
  sortedByTime (array_sort byTimeOffset [kfThrow; kfCatch; kfSnap]) = true
  /\ Permutation [kfThrow; kfCatch; kfSnap]
                 (array_sort byTimeOffset [kfThrow; kfCatch; kfSnap]).
Proof.
  apply (sort_orders_keyframes [kfThrow; kfCatch; kfSnap]). reflexivity.
Defined.

(** X9.  Keyframes that are in ascending order already are left exactly as
    they are, keyframes with equal timestamps included: the sort never swaps
    a tie. *)
Theorem sort_keeps_sorted_input :
  forall frames,
    sortedByTime frames = true -> array_sort byTimeOffset frames = frames.
Proof.
  intros l. induction l as [|x l IH]; intros Hs; [reflexivity|].
  cbn [array_sort fold_right]. fold (array_sort byTimeOffset l).
  rewrite sorted_cons in Hs. apply andb_true_iff in Hs as [Hh Hs'].
  rewrite (IH Hs'). destruct l as [|y l]; [reflexivity|].
  cbn [headLe] in Hh. cbn [insertSorted].
  destruct (leb_not_nan _ _ Hh) as [Hx Hy].
  now rewrite (byTimeOffset_pos x y Hx Hy), (leb_antisym _ _ Hh).
Qed.

Lemma sort_keeps_sorted_input_witness :
  array_sort byTimeOffset [kfA0; kfTieA; kfTieB; kfA2]
  = [kfA0; kfTieA; kfTieB; kfA2].
Proof.
  apply (sort_keeps_sorted_input [kfA0; kfTieA; kfTieB; kfA2]). reflexivity.
Defined.

(** ** The data URL *)

Lemma split_on_commaFree s : commaFree s = true -> split_on ","%char s = [s].
Proof.
  induction s as [|c s IH]; intros H; [reflexivity|].
  cbn [commaFree] in H. apply andb_true_iff in H as [Hc Hs].
  apply negb_true_iff in Hc. cbn [split_on]. now rewrite Hc, (IH Hs).
Qed.

Lemma split_on_header header rest :
  commaFree header = true ->
  split_on ","%char (header ++ String ","%char rest)%string
  = header :: split_on ","%char rest.
Proof.
  induction header as [|c header IH]; intros H.
  - cbn [append split_on]. now rewrite Ascii.eqb_refl.
  - cbn [commaFree] in H. apply andb_true_iff in H as [Hc Hs].
    apply negb_true_iff in Hc. cbn [append split_on]. now rewrite Hc, (IH Hs).
Qed.

Section Service.

Variable readAsDataURL : File.t -> settled string.
Variable generateContent : string -> option string -> settled (option string).
Variable parseJSON : string -> settled AnalysisResult.

(** X10.  Of a data URL [header,payload] with a single comma
    [fileToGenerativePart] resolves to the payload, without the header and
    the comma. *)
Theorem data_url_payload_is_extracted :
  forall file header payload,
    readAsDataURL file = Fulfilled (header ++ String ","%char payload)%string ->
    commaFree header = true ->
    commaFree payload = true ->
    fileToGenerativePart readAsDataURL file = Fulfilled (Some payload).
Proof.
  intros file header payload Hread Hh Hp. unfold fileToGenerativePart.
  now rewrite Hread, (split_on_header _ _ Hh), (split_on_commaFree _ Hp).
Qed.

(** X11.  When the reader's result has no comma (such as the bare [data:] of
    an empty file) there is no second piece: the promise still resolves, to
    [undefined]. *)
Theorem data_url_without_comma_gives_undefined :
  forall file result,
    readAsDataURL file = Fulfilled result ->
    commaFree result = true ->
    fileToGenerativePart readAsDataURL file = Fulfilled None.
Proof.
  intros file result Hread Hc. unfold fileToGenerativePart.
  now rewrite Hread, (split_on_commaFree _ Hc).
Qed.

(** What a fulfilled call went through. *)
Lemma analyzeVideoClip_fulfilled file apiKey result :
  analyzeVideoClip readAsDataURL generateContent parseJSON file apiKey
  = Fulfilled result ->
  apiKey <> EmptyString
  /\ exists base64Data text data,
      fileToGenerativePart readAsDataURL file = Fulfilled base64Data
      /\ generateContent (File.type file) base64Data = Fulfilled (Some text)
      /\ text <> EmptyString
      /\ parseJSON text = Fulfilled data
      /\ result = mkAnalysisResult (summary data) (formation data) (playType data)
                    (array_sort byTimeOffset (keyframes data)).
Proof.
  unfold analyzeVideoClip.
  destruct (String.eqb_spec apiKey EmptyString) as [|Hkey]; [discriminate|].
  destruct (fileToGenerativePart readAsDataURL file) as [base64Data|] eqn:Eb;
    [|discriminate].
  destruct (generateContent (File.type file) base64Data) as [[text|]|] eqn:Eg;
    try discriminate.
  destruct (String.eqb_spec text EmptyString) as [|Htext]; [discriminate|].
  destruct (parseJSON text) as [data|] eqn:Ep; [|discriminate].
  intros E. injection E as <-. split; [exact Hkey|].
  exists base64Data, text, data. repeat split; auto.
Qed.

(** X12.  The service fulfils only with what the model answered: the call
    had an API key, the response had a text, the text parsed, and the result
    is the parsed value with its keyframes reordered, none dropped, added or
    changed, into ascending order of [timeOffset] when the timestamps are
    numbers. *)
Theorem analysis_returns_sorted_response :
  forall file apiKey result,
    analyzeVideoClip readAsDataURL generateContent parseJSON file apiKey
    = Fulfilled result ->
    apiKey <> EmptyString
    /\ exists base64Data text data,
        fileToGenerativePart readAsDataURL file = Fulfilled base64Data
        /\ generateContent (File.type file) base64Data = Fulfilled (Some text)
        /\ text <> EmptyString
        /\ parseJSON text = Fulfilled data
        /\ summary result = summary data
        /\ formation result = formation data
        /\ playType result = playType data
        /\ Permutation (keyframes data) (keyframes result)
        /\ (timestampsNotNaN (keyframes data) = true ->
            sortedByTime (keyframes result) = true).
Proof.
  intros file apiKey result H.
  destruct (analyzeVideoClip_fulfilled _ _ _ H)
    as (Hkey & base64Data & text & data & Hb & Hg & Ht & Hp & ->).
  split; [exact Hkey|]. exists base64Data, text, data.
  cbn [summary formation playType keyframes].
  repeat split; auto.
  - apply array_sort_perm.
  - apply array_sort_sorted.
Qed.

End Service.

Lemma data_url_payload_is_extracted_witness :
  fileToGenerativePart sampleReader smallClip
  = Fulfilled (Some "AAAAIGZ0eXBpc29t"%string).
Proof.
  apply (data_url_payload_is_extracted
           sampleReader smallClip "data:video/mp4;base64"%string
           "AAAAIGZ0eXBpc29t"%string); reflexivity.
Defined.

Lemma data_url_without_comma_gives_undefined_witness :
  fileToGenerativePart (fun _ => Fulfilled "data:"%string) smallClip
  = Fulfilled None.
Proof.
  apply (data_url_without_comma_gives_undefined
           (fun _ => Fulfilled "data:"%string) smallClip "data:"%string);
    reflexivity.
Defined.

Lemma analysis_returns_sorted_response_witness :
  exists data,
    sampleParse sampleText = Fulfilled data
    /\ Permutation (keyframes data) [kfSnap; kfThrow; kfCatch]
    /\ sortedByTime [kfSnap; kfThrow; kfCatch] = true.
Proof.
  destruct (analysis_returns_sorted_response
              sampleReader sampleModel sampleParse smallClip "sample-key"%string
              longPass eq_refl)
    as (_ & base64Data & text & data & Hb & Hg & _ & Hp & _ & _ & _ & Hperm & Hs).
  injection Hb as <-. injection Hg as <-.
  exists data. split; [exact Hp|]. split; [exact Hperm|].
  apply Hs. injection Hp as <-. reflexivity.
Defined.

End ServiceSpec.

(** * The screens of the component *)

Module ScreenSpec.

Import FloatFacts FloatOrder ArrayFacts InterpolatorFacts SortFacts PlaybackSpec.
Local Open Scope float_scope.

(** ** What the handlers leave alone *)

Lemma tick_result timestamp s s' :
  tick timestamp s = Returned s' -> analysisResult s' = analysisResult s.
Proof.
  unfold tick, loop. cbn [isPlaying analysisResult set_lastFrameTimeRef].
  destruct (isPlaying s) eqn:Ep, (analysisResult s) as [result|] eqn:Er;
    cbn [bind].
  - destruct (lastFrame (keyframes result)); [|discriminate]. cbn [deref bind].
    destruct (syncVideo _ _) as [video|]; [|discriminate]. cbn [bind].
    destruct (_ <=? _); cbn [bind]; intros E; injection E as <-;
      unfold rerender, playbackEffect; cbn; rewrite ?Ep; cbn; auto.
  - intros E; injection E as <-. unfold rerender, playbackEffect. cbn.
    rewrite Ep. cbn. auto.
  - intros E; injection E as <-. unfold rerender, playbackEffect. cbn.
    rewrite Ep. cbn. auto.
  - intros E; injection E as <-. unfold rerender, playbackEffect. cbn.
    rewrite Ep. cbn. auto.
Qed.

Lemma setIsPlaying_result b s :
  analysisResult (setIsPlaying b s) = analysisResult s.
Proof.
  unfold setIsPlaying, rerender, playbackEffect.
  destruct (negb _); [destruct b|]; reflexivity.
Qed.

Lemma setPlaybackSpeed_result speed s :
  analysisResult (setPlaybackSpeed speed s) = analysisResult s.
Proof.
  unfold setPlaybackSpeed, rerender, playbackEffect.
  destruct (negb _); [cbn; destruct (isPlaying s)|]; reflexivity.
Qed.

Lemma handleSeek_result val s :
  analysisResult (stateAfter (handleSeek val s)) = analysisResult s.
Proof. now rewrite stateAfter_handleSeek. Qed.

Lemma analysisSucceeded_result result s :
  analysisResult (analysisSucceeded result s) = Some result.
Proof.
  unfold analysisSucceeded, rerender, playbackEffect. cbn.
  destruct (isPlaying s); reflexivity.
Qed.

Section Screens.

Variable createObjectURL : File.t -> string.
Variable API_KEY : option string.
Variable readAsDataURL : File.t -> settled string.
Variable generateContent : string -> option string -> settled (option string).
Variable parseJSON : string -> settled AnalysisResult.

Local Abbreviation step :=
  (pageStep createObjectURL API_KEY readAsDataURL generateContent parseJSON).
Local Abbreviation reachablePage :=
  (pageReachable createObjectURL API_KEY readAsDataURL generateContent parseJSON).
Local Abbreviation analysisOf :=
  (analysis API_KEY readAsDataURL generateContent parseJSON).

(** The events by what they do to screen, file, URL, error text and
    result: nothing; an accepted upload; an error; the start of an
    analysis; its success; the way back to the upload screen. *)
Lemma step_cases p q :
  step p q ->
  (appState q = appState p /\ videoFile q = videoFile p
   /\ videoUrl q = videoUrl p /\ errorMsg q = errorMsg p
   /\ analysisResult (playback q) = analysisResult (playback p))
  \/ (exists file,
        appState p = IDLE /\ appState q = UPLOADING
        /\ (File.size file <= uploadLimit)%Z
        /\ videoFile q = Some file
        /\ videoUrl q = Some (createObjectURL file)
        /\ errorMsg q = EmptyString
        /\ analysisResult (playback q) = analysisResult (playback p))
  \/ (appState q = ERROR /\ errorMsg q <> EmptyString
      /\ videoFile q = videoFile p /\ videoUrl q = videoUrl p
      /\ analysisResult (playback q) = analysisResult (playback p))
  \/ (appState p = UPLOADING /\ appState q = ANALYZING
      /\ videoFile q = videoFile p /\ videoUrl q = videoUrl p
      /\ errorMsg q = errorMsg p
      /\ analysisResult (playback q) = analysisResult (playback p))
  \/ (exists file result,
        appState p = ANALYZING /\ appState q = PLAYBACK
        /\ videoFile p = Some file
        /\ analysisOf file = Fulfilled result
        /\ videoFile q = videoFile p /\ videoUrl q = videoUrl p
        /\ errorMsg q = errorMsg p
        /\ analysisResult (playback q) = Some result)
  \/ (appState p = ERROR /\ appState q = IDLE
      /\ videoFile q = videoFile p /\ videoUrl q = videoUrl p
      /\ errorMsg q = errorMsg p
      /\ analysisResult (playback q) = analysisResult (playback p)).
Proof.
  intros Hstep.
  destruct Hstep as [picked p Hidle | p Hup Hvid | file p Han Hfile | p Herr
                    | p Hctl | playing p Hvid | speed p Hctl Hspeed | val p Hctl
                    | timestamp p s' Hplay Htick].
  - (* the file input *)
    unfold handleFileUpload. destruct picked as [file|]; [|left; auto 6].
    destruct (Z.ltb_spec (20 * 1024 * 1024) (File.size file)) as [Hbig|Hok].
    + right. right. left. cbn. repeat split. discriminate.
    + right. left. exists file. cbn. repeat split; auto.
  - (* Analyze *)
    unfold handleAnalyze. destruct (videoFile p) as [file|] eqn:Ef; [|left; auto 6].
    destruct (String.eqb (apiKey API_KEY) EmptyString).
    + right. right. left. cbn. repeat split; auto. discriminate.
    + right. right. right. left. cbn. repeat split; auto.
  - (* the analysis settles *)
    unfold handleAnalyze_resumed.
    destruct (analysisOf file) as [result|message] eqn:Ea.
    + right. right. right. right. left. exists file, result. cbn.
      repeat split; auto. apply analysisSucceeded_result.
    + right. right. left. unfold analysisFailed. cbn. repeat split.
      destruct (String.eqb_spec message EmptyString); [discriminate|assumption].
  - (* Try another video *)
    right. right. right. right. right. cbn. repeat split; auto.
  - left. cbn. repeat split; auto. apply setIsPlaying_result.
  - left. cbn. repeat split; auto. apply setIsPlaying_result.
  - left. cbn. repeat split; auto. apply setPlaybackSpeed_result.
  - left. cbn. repeat split; auto. apply handleSeek_result.
  - left. cbn. repeat split; auto. eapply tick_result; eassumption.
Qed.

Ltac screens :=
  match goal with
  | H : _ = _ \/ _ = _ \/ _ = _ |- _ =>
      destruct H as [H|[H|H]]; try discriminate; try congruence
  end.

(** What a page that did not throw on render tells about its result. *)
Lemma render_returned p shown result :
  render p = Returned shown ->
  appState p = PLAYBACK ->
  analysisResult (playback p) = Some result ->
  keyframes result <> [].
Proof.
  unfold render. intros Hrender Hstate Hres Hempty.
  rewrite Hstate, Hres in Hrender. unfold currentFrame in Hrender.
  rewrite (interpolate_empty _ _ Hempty) in Hrender. cbn [bind] in Hrender.
  unfold lastFrame in Hrender. rewrite Hempty in Hrender. discriminate.
Qed.

(** The invariants of the pages the component can show. *)
Lemma page_invariant p :
  reachablePage p ->
  (forall file, videoFile p = Some file ->
                (File.size file <= uploadLimit)%Z
                /\ videoUrl p = Some (createObjectURL file))
  /\ (appState p = UPLOADING \/ appState p = ANALYZING \/ appState p = PLAYBACK ->
      videoFile p <> None /\ errorMsg p = EmptyString)
  /\ (appState p = ERROR -> errorMsg p <> EmptyString)
  /\ (appState p = PLAYBACK -> analysisResult (playback p) <> None)
  /\ (forall result, analysisResult (playback p) = Some result ->
                     exists file, analysisOf file = Fulfilled result)
  /\ (forall result, analysisResult (playback p) = Some result ->
                     keyframes result = [] -> appState p = PLAYBACK).
Proof.
  induction 1 as [|p q shown Hp IH Hrender Hstep].
  - cbn. repeat split; intros; try discriminate; screens.
  - destruct IH as (Ifile & Iclip & Ierr & Ires & Ifrom & Iempty).
    assert (Hkept : forall result,
               analysisResult (playback q) = analysisResult (playback p) ->
               analysisResult (playback q) = Some result ->
               keyframes result = [] -> appState q = PLAYBACK).
    { intros result Hsame Hres Hempty. rewrite Hsame in Hres. exfalso.
      apply (render_returned p shown result Hrender); auto.
      now apply (Iempty result). }
    destruct (step_cases p q Hstep)
      as [(Hs & Hf & Hu & He & Hr)
         |[(file & Hs & Hs' & Hsize & Hf & Hu & He & Hr)
         |[(Hs' & He & Hf & Hu & Hr)
         |[(Hs & Hs' & Hf & Hu & He & Hr)
         |[(file & result & Hs & Hs' & Hfile & Ha & Hf & Hu & He & Hr)
          |(Hs & Hs' & Hf & Hu & He & Hr)]]]]];
      (split; [|split; [|split; [|split; [|split]]]]);
      try (intros result0 Hres0 Hempty0; apply (Hkept result0); congruence);
      try (rewrite Hr; exact Ifrom);
      try (rewrite Hr, ?Hs, ?Hs'; exact Ires);
      try (rewrite ?Hs, ?Hs', ?He; exact Ierr);
      try (rewrite ?Hs, ?Hs'; intros; try discriminate; screens; fail).
    all: try (rewrite Hf, Hu; exact Ifile).
    all: try (rewrite Hs, Hf, He; exact Iclip).
    + intros file' E. rewrite Hf in E. injection E as <-. auto.
    + rewrite Hf, He. intros _. split; [discriminate|reflexivity].
    + intros _. exact He.
    + rewrite Hs', Hf, He. intros _. apply Iclip. auto.
    + rewrite Hs', Hf, He. intros _. apply Iclip. auto.
    + rewrite Hr. discriminate.
    + rewrite Hr. intros result' E. injection E as <-. exists file. exact Ha.
    + intros _ _ _. exact Hs'.
Qed.

(** X13.  The file the component holds is never above the upload limit of
    [20 * 1024 * 1024] bytes: a larger one is refused before it is stored,
    and only such a file is ever handed to the analysis. *)
Theorem stored_file_within_limit :
  forall p file,
    pageReachable createObjectURL API_KEY readAsDataURL generateContent parseJSON
                  p ->
    videoFile p = Some file ->
    (File.size file <= uploadLimit)%Z.
Proof.
  intros p file Hp Hfile. now apply (page_invariant p Hp).
Qed.


(** X15.  The error screen always has a text to show: whenever the component
    is in the [ERROR] state, [errorMsg] is not empty. *)
Theorem error_screen_has_message :
  forall p,
    pageReachable createObjectURL API_KEY readAsDataURL generateContent parseJSON
                  p ->
    appState p = ERROR ->
    errorMsg p <> EmptyString.
Proof.
  intros p Hp. apply (page_invariant p Hp).
Qed.

(** X16.  Every result the component holds came from the service and has its
    keyframes in ascending order of [timeOffset] (for timestamps that are
    numbers): the precondition of the interpolation holds for whatever is
    played back. *)
Theorem stored_result_is_sorted :
  forall p result,
    pageReachable createObjectURL API_KEY readAsDataURL generateContent parseJSON
                  p ->
    analysisResult (playback p) = Some result ->
    timestampsNotNaN (keyframes result) = true ->
    sortedByTime (keyframes result) = true.
Proof.
  intros p result Hp Hres Hn.
  destruct (page_invariant p Hp) as (_ & _ & _ & _ & Ifrom & _).
  destruct (Ifrom result Hres) as [file Ha].
  destruct (ServiceSpec.analyzeVideoClip_fulfilled _ _ _ _ _ _ Ha)
    as (_ & _ & _ & data & _ & _ & _ & _ & ->).
  cbn [keyframes] in *. apply array_sort_sorted.
  now rewrite (timestampsNotNaN_perm _ _ (array_sort_perm byTimeOffset (keyframes data))).
Qed.

(** X17.  No event takes a stored result away: an error, the way back to the
    upload screen and a new upload leave it in the component, and only a
    successful analysis puts another one in its place. *)
Theorem result_is_never_cleared :
  forall p q result,
    pageStep createObjectURL API_KEY readAsDataURL generateContent parseJSON
             p q ->
    analysisResult (playback p) = Some result ->
    analysisResult (playback q) = Some result
    \/ (exists file result',
           appState p = ANALYZING /\ appState q = PLAYBACK
           /\ analysis API_KEY readAsDataURL generateContent parseJSON file
              = Fulfilled result'
           /\ analysisResult (playback q) = Some result').
Proof.
  intros p q result Hstep Hres.
  destruct (step_cases p q Hstep)
    as [(_ & _ & _ & _ & Hr)
       |[(file & _ & _ & _ & _ & _ & _ & Hr)
       |[(_ & _ & _ & _ & Hr)
       |[(_ & _ & _ & _ & _ & Hr)
       |[(file & result' & Hs & Hs' & _ & Ha & _ & _ & _ & Hr)
        |(_ & _ & _ & _ & _ & Hr)]]]]];
    try (left; congruence).
  right. exists file, result'. auto.
Qed.

(** In a page that has been rendered, a stored result has keyframes. *)
Lemma stored_result_has_keyframes p shown result :
  reachablePage p ->
  render p = Returned shown ->
  analysisResult (playback p) = Some result ->
  keyframes result <> [].
Proof.
  intros Hp Hrender Hres Hempty.
  destruct (page_invariant p Hp) as (_ & _ & _ & _ & _ & Iempty).
  apply (render_returned p shown result Hrender); auto.
  now apply (Iempty result).
Qed.


(** X18.  Within the component the animation callback never throws for
    lack of keyframes (a result without keyframes makes the render of the
    playback screen throw first): on a page that has been rendered and is
    playing, the tick throws exactly when a result is stored and a
    mounted video, more than half a second away from the advanced time,
    would have to be moved to a time that is not finite. *)
Theorem callback_throws_only_moving_video :
  forall p shown timestamp,
    pageReachable createObjectURL API_KEY readAsDataURL generateContent parseJSON
                  p ->
    render p = Returned shown ->
    isPlaying (playback p) = true ->
    let advanced :=
      currentTime (playback p)
      + deltaTimeOf (lastFrameTimeRef (playback p)) timestamp
        * playbackSpeed (playback p) in
    tick timestamp (playback p) = TypeError
    <-> (analysisResult (playback p) <> None
         /\ exists videoTime,
             videoRef (playback p) = Some videoTime
             /\ (0.5 <? abs (videoTime - advanced)) = true
             /\ is_finite advanced = false).
Proof.
  intros p shown timestamp Hp Hrender Hplay advanced.
  destruct (analysisResult (playback p)) as [result|] eqn:Er.
  - pose proof (stored_result_has_keyframes p shown result Hp Hrender Er) as Hne.
    destruct (frames_ends _ Hne) as (first & maxFrame & _ & Hl).
    destruct (syncVideo advanced (videoRef (playback p))) as [video|] eqn:Es.
    + rewrite (tick_running timestamp _ result maxFrame video Hplay Er Hl Es).
      split; [discriminate|]. intros [_ Hthrow].
      apply (proj2 (syncVideo_throws advanced _)) in Hthrow. congruence.
    + rewrite (tick_sync_throws timestamp _ result maxFrame Hplay Er Hl Es).
      split; [|reflexivity]. intros _. split; [discriminate|].
      now apply syncVideo_throws.
  - rewrite (tick_no_result timestamp _ Er).
    split; [discriminate|]. intros [Hnone _]. congruence.
Qed.

End Screens.

(** X19.  A render throws exactly on the playback screen of a result without
    keyframes, where the scrubber's [max] reads the last keyframe's
    [timeOffset]; on every other page it returns. *)
Theorem render_throws_iff_no_keyframes :
  forall p,
    render p = TypeError
    <-> appState p = PLAYBACK
        /\ exists result,
            analysisResult (playback p) = Some result /\ keyframes result = [].
Proof.
  intros p. unfold render, currentFrame.
  destruct (analysisResult (playback p)) as [result|] eqn:Er.
  - assert (Hcases : keyframes result = [] \/ keyframes result <> []).
    { destruct (keyframes result); [left; reflexivity|right; discriminate]. }
    destruct Hcases as [Ek|Hne].
    + rewrite (interpolate_empty _ _ Ek). cbn [bind]. unfold lastFrame.
      rewrite Ek. cbn.
      destruct (appState p);
        try (split; [discriminate|intros [H _]; discriminate H]).
      split; [intros _|reflexivity].
      split; [reflexivity|exists result; auto].
    + destruct (interpolate_returns (currentTime (playback p)) result Hne)
        as [frame ->].
      destruct (frames_ends _ Hne) as (first & maxFrame & _ & Hl).
      rewrite Hl. cbn [bind deref].
      destruct (appState p); (split; [discriminate|]);
        intros (_ & result' & E & Hempty); injection E as <-; congruence.
  - cbn [bind].
    destruct (appState p); (split; [discriminate|]);
      intros (_ & result' & E & _); discriminate.
Qed.

(** The sample session is one the component can go through. *)
Lemma playbackPage_reachable :
  pageReachable sampleURL sampleKey sampleReader sampleModel sampleParse
                playbackPage.
Proof.
  eapply reach_step; [eapply reach_step; [eapply reach_step|..]|..].
  - apply reach_initialPage.
  - reflexivity.
  - apply (step_upload _ _ _ _ _ (Some smallClip)). reflexivity.
  - reflexivity.
  - apply step_analyze; reflexivity.
  - reflexivity.
  - apply (step_settled _ _ _ _ _ smallClip); reflexivity.
Qed.

Lemma rejectedPage_reachable :
  pageReachable sampleURL sampleKey sampleReader sampleModel sampleParse
                rejectedPage.
Proof.
  eapply reach_step.
  - apply reach_initialPage.
  - reflexivity.
  - apply (step_upload _ _ _ _ _ (Some hugeClip)). reflexivity.
Qed.

Lemma stored_file_within_limit_witness :
  (File.size smallClip <= uploadLimit)%Z.
Proof.
  apply (stored_file_within_limit
           sampleURL sampleKey sampleReader sampleModel sampleParse
           playbackPage smallClip playbackPage_reachable).
  reflexivity.
Defined.


Lemma error_screen_has_message_witness :
  errorMsg rejectedPage <> EmptyString.
Proof.
  apply (error_screen_has_message
           sampleURL sampleKey sampleReader sampleModel sampleParse
           rejectedPage rejectedPage_reachable).
  reflexivity.
Defined.

Lemma stored_result_is_sorted_witness :
  sortedByTime (keyframes longPass) = true.
Proof.
  apply (stored_result_is_sorted
           sampleURL sampleKey sampleReader sampleModel sampleParse
           playbackPage longPass playbackPage_reachable); reflexivity.
Defined.

Lemma result_is_never_cleared_witness :
  analysisResult (playback (tryAnotherVideo (analysisFailed "HTTP 503" playbackPage)))
  = Some longPass.
Proof.
  assert (Hstep : pageStep sampleURL sampleKey sampleReader sampleModel sampleParse
                           (analysisFailed "HTTP 503" playbackPage)
                           (tryAnotherVideo (analysisFailed "HTTP 503" playbackPage))).
  { apply step_retry. reflexivity. }
  destruct (result_is_never_cleared
              sampleURL sampleKey sampleReader sampleModel sampleParse
              _ _ longPass Hstep eq_refl)
    as [Hkept|(file & result' & Hstate & _)].
  - exact Hkept.
  - discriminate Hstate.
Defined.

Lemma callback_throws_only_moving_video_witness :
  tick 16 (playback (onPlayback (setIsPlaying true) playbackPage)) = TypeError
  <-> (analysisResult (playback (onPlayback (setIsPlaying true) playbackPage))
       <> None
       /\ exists videoTime,
           videoRef (playback (onPlayback (setIsPlaying true) playbackPage))
           = Some videoTime
           /\ (0.5 <? abs (videoTime - (0 + deltaTimeOf 0 16 * 1))) = true
           /\ is_finite (0 + deltaTimeOf 0 16 * 1) = false).
Proof.
  apply (callback_throws_only_moving_video
           sampleURL sampleKey sampleReader sampleModel sampleParse
           (onPlayback (setIsPlaying true) playbackPage)
           (Some kfSnap, Some 4) 16).
  - eapply reach_step; [exact playbackPage_reachable|reflexivity|].
    apply (step_playPause _ _ _ _ _ playbackPage). reflexivity.
  - reflexivity.
  - reflexivity.
Defined.

End ScreenSpec.
